(** * Snake (main.py): a shallow embedding of the simulation core

    The game keeps every coordinate in pixels: Python integers, unbounded,
    hence [Z].  A position and a direction are both [Tuple[int, int]].
    Indexing an empty list raises [IndexError], the food loop [while True]
    may run for ever: both are results of a computation here. *)

From Stdlib Require Import ZArith List Bool Lia.
Import ListNotations.
Local Open Scope Z_scope.

(** ** Results of a computation *)

Inductive outcome (A : Type) : Type :=
| Done (a : A)        (* the call returned [a] *)
| IndexError          (* the call raised IndexError *)
| OutOfFuel.          (* the loop was still running when the fuel ran out *)

Arguments Done {A} a.
Arguments IndexError {A}.
Arguments OutOfFuel {A}.

(** The source of randomness: the raw values the generator will produce,
    in the order in which they are asked for. *)
Definition RNG : Type := nat -> Z.

Definition rng_next (g : RNG) : RNG := fun n => g (S n).

(** Computations that draw random numbers. *)
Definition M (A : Type) : Type := RNG -> outcome (A * RNG).

Definition ret {A} (a : A) : M A := fun g => Done (a, g).

Definition bind {A B} (m : M A) (k : A -> M B) : M B :=
  fun g =>
    match m g with
    | Done (a, g') => k a g'
    | IndexError => IndexError
    | OutOfFuel => OutOfFuel
    end.

Definition lift {A} (o : outcome A) : M A :=
  fun g =>
    match o with
    | Done a => Done (a, g)
    | IndexError => IndexError
    | OutOfFuel => OutOfFuel
    end.

Notation "x <- m ;; k" := (bind m (fun x => k))
  (at level 61, m at next level, right associativity).

(** [random.randint(a, b)]: an integer N with a <= N <= b (for a <= b). *)
Definition randint (a b : Z) : M Z :=
  fun g => Done (a + (g O) mod (b - a + 1), rng_next g).

(** ** Constants *)

Definition BLOCK_SIZE : Z := 20.
Definition SCREEN_WIDTH : Z := 800.
Definition SCREEN_HEIGHT : Z := 600.

Definition Pos : Type := (Z * Z)%type.

(** class Direction *)
Module Direction.

Definition UP : Pos := (0, - BLOCK_SIZE).
Definition DOWN : Pos := (0, BLOCK_SIZE).
Definition LEFT : Pos := (- BLOCK_SIZE, 0).
Definition RIGHT : Pos := (BLOCK_SIZE, 0).

End Direction.

(** ** Python lists of positions *)

(** [p == q] on tuples of two integers. *)
Definition pos_eqb (p q : Pos) : bool :=
  (fst p =? fst q) && (snd p =? snd q).

(** [p in l] *)
Definition contains (p : Pos) (l : list Pos) : bool :=
  existsb (pos_eqb p) l.

(** [l[0]] *)
Definition item0 {A} (l : list A) : outcome A :=
  match l with
  | [] => IndexError
  | x :: _ => Done x
  end.

(** [l.insert(0, x)] *)
Definition insert0 {A} (x : A) (l : list A) : list A := x :: l.

(** [l.pop()]: the list without its last element (the popped value is
    dropped by the caller). *)
Definition pop {A} (l : list A) : outcome (list A) :=
  match l with
  | [] => IndexError
  | _ :: _ => Done (removelast l)
  end.

(** [any(bs)] *)
Definition any (bs : list bool) : bool := existsb (fun b => b) bs.

(** ** class Snake *)

Record Snake : Type := mkSnake {
  body : list Pos;
  direction : Pos;
  grow : bool
}.

Definition Snake_init : Snake :=
  {| body := [ (SCREEN_WIDTH / 2, SCREEN_HEIGHT / 2);
               (SCREEN_WIDTH / 2 - BLOCK_SIZE, SCREEN_HEIGHT / 2);
               (SCREEN_WIDTH / 2 - 2 * BLOCK_SIZE, SCREEN_HEIGHT / 2) ];
     direction := Direction.RIGHT;
     grow := false |}.

Definition move (s : Snake) : outcome Snake :=
  match item0 (body s) with
  | Done h =>
      let new_head := (fst h + fst (direction s), snd h + snd (direction s)) in
      let body1 := insert0 new_head (body s) in
      if negb (grow s) then
        match pop body1 with
        | Done body2 => Done {| body := body2; direction := direction s; grow := grow s |}
        | IndexError => IndexError
        | OutOfFuel => OutOfFuel
        end
      else Done {| body := body1; direction := direction s; grow := false |}
  | IndexError => IndexError
  | OutOfFuel => OutOfFuel
  end.

Definition change_direction (s : Snake) (new_direction : Pos) : Snake :=
  let '(current_x, current_y) := direction s in
  let '(new_x, new_y) := new_direction in
  match current_x + new_x, current_y + new_y with
  | 0, 0 => s
  | _, _ => {| body := body s; direction := new_direction; grow := grow s |}
  end.

Definition check_collision (s : Snake) : outcome bool :=
  match item0 (body s) with
  | Done head =>
      Done (any [ contains head (tl (body s));
                  fst head <? 0;
                  fst head >=? SCREEN_WIDTH;
                  snd head <? 0;
                  snd head >=? SCREEN_HEIGHT ])
  | IndexError => IndexError
  | OutOfFuel => OutOfFuel
  end.

(** ** class Food *)

Fixpoint generate_valid_position (fuel : nat) (snake_body : list Pos) : M Pos :=
  match fuel with
  | O => fun _ => OutOfFuel
  | S fuel' =>
      i <- randint 0 ((SCREEN_WIDTH - BLOCK_SIZE) / BLOCK_SIZE) ;;
      j <- randint 0 ((SCREEN_HEIGHT - BLOCK_SIZE) / BLOCK_SIZE) ;;
      let x := i * BLOCK_SIZE in
      let y := j * BLOCK_SIZE in
      if negb (contains (x, y) snake_body) then ret (x, y)
      else generate_valid_position fuel' snake_body
  end.

(** A food object holds its position only. *)
Definition Food_init (fuel : nat) (snake_body : list Pos) : M Pos :=
  generate_valid_position fuel snake_body.

(** ** class Game (the display, the clock and the font are left out) *)

Record Game : Type := mkGame {
  snake : Snake;
  food : Pos;
  score : Z;
  running : bool
}.

Definition reset (fuel : nat) : M Game :=
  let s := Snake_init in
  f <- Food_init fuel (body s) ;;
  ret {| snake := s; food := f; score := 0; running := true |}.

Inductive key : Type := K_UP | K_DOWN | K_LEFT | K_RIGHT | K_ESCAPE | K_OTHER.

Inductive event : Type := QUIT | KEYDOWN (k : key) | OTHER_EVENT.

Definition set_snake (g : Game) (s : Snake) : Game :=
  {| snake := s; food := food g; score := score g; running := running g |}.

Definition set_running (g : Game) (b : bool) : Game :=
  {| snake := snake g; food := food g; score := score g; running := b |}.

Definition handle_event (g : Game) (e : event) : Game :=
  match e with
  | QUIT => set_running g false
  | KEYDOWN K_UP => set_snake g (change_direction (snake g) Direction.UP)
  | KEYDOWN K_DOWN => set_snake g (change_direction (snake g) Direction.DOWN)
  | KEYDOWN K_LEFT => set_snake g (change_direction (snake g) Direction.LEFT)
  | KEYDOWN K_RIGHT => set_snake g (change_direction (snake g) Direction.RIGHT)
  | KEYDOWN K_ESCAPE => set_running g false
  | KEYDOWN K_OTHER => g
  | OTHER_EVENT => g
  end.

(** [events] is what [pygame.event.get()] returns for this frame. *)
Definition handle_input (events : list event) (g : Game) : Game :=
  fold_left handle_event events g.

Definition update (fuel : nat) (g : Game) : M Game :=
  s1 <- lift (move (snake g)) ;;
  h <- lift (item0 (body s1)) ;;
  g1 <- (if pos_eqb h (food g) then
           let s2 := {| body := body s1; direction := direction s1; grow := true |} in
           let score2 := score g + 1 in
           f <- Food_init fuel (body s2) ;;
           ret {| snake := s2; food := f; score := score2; running := running g |}
         else
           ret {| snake := s1; food := food g; score := score g; running := running g |}) ;;
  c <- lift (check_collision (snake g1)) ;;
  ret (if c then set_running g1 false else g1).

(** The loop of [run]: [inputs n] are the events of frame [n]; drawing and
    the clock do not touch the game state. *)
Fixpoint run_loop (fuel : nat) (inputs : nat -> list event) (frame : nat)
         (g : Game) : M Game :=
  if running g then
    match fuel with
    | O => fun _ => OutOfFuel
    | S fuel' =>
        g' <- update fuel (handle_input (inputs frame) g) ;;
        run_loop fuel' inputs (S frame) g'
    end
  else ret g.

Definition run (fuel : nat) (inputs : nat -> list event) : M Game :=
  g <- reset fuel ;;
  run_loop fuel inputs O g.

(** * Vocabulary of the statements *)

(** [r] is the opposite of [d]: the two vectors add up to zero. *)
Definition is_opposite (d r : Pos) : Prop :=
  fst d + fst r = 0 /\ snd d + snd r = 0.

(** The snake after a move, when its head is [h]. *)
Definition moved (s : Snake) (h : Pos) : Snake :=
  {| body := (fst h + fst (direction s), snd h + snd (direction s))
               :: (if grow s then body s else removelast (body s));
     direction := direction s;
     grow := false |}.

(** [p] is beyond one of the four borders. *)
Definition out_of_screen (p : Pos) : Prop :=
  fst p < 0 \/ fst p >= SCREEN_WIDTH \/ snd p < 0 \/ snd p >= SCREEN_HEIGHT.

(** What [check_collision] computes on a body [head :: rest]. *)
Definition hit (head : Pos) (rest : list Pos) : bool :=
  contains head rest
  || ((fst head <? 0) || ((fst head >=? SCREEN_WIDTH)
  || ((snd head <? 0) || (snd head >=? SCREEN_HEIGHT)))).

(** The game after the food tests of [update]: the head was on the food
    and the new food is [f]; or it was not. *)
Definition ate (s1 : Snake) (f : Pos) (g : Game) : Game :=
  {| snake := {| body := body s1; direction := direction s1; grow := true |};
     food := f; score := score g + 1; running := running g |}.

Definition went_on (s1 : Snake) (g : Game) : Game :=
  {| snake := s1; food := food g; score := score g; running := running g |}.

(** The end of [update]: a collision clears [running]. *)
Definition stop_if (c : bool) (g : Game) : Game :=
  if c then set_running g false else g.

(** The cell the loop tries first with the random source [rng]. *)
Definition candidate (rng : RNG) : Pos :=
  ((0 + rng 0%nat mod ((SCREEN_WIDTH - BLOCK_SIZE) / BLOCK_SIZE - 0 + 1)) * BLOCK_SIZE,
   (0 + rng 1%nat mod ((SCREEN_HEIGHT - BLOCK_SIZE) / BLOCK_SIZE - 0 + 1)) * BLOCK_SIZE).

(** The cell it tries in iteration [k] (counted from 0). *)
Definition nth_candidate (rng : RNG) (k : nat) : Pos :=
  candidate (fun n => rng (2 * k + n)%nat).

(** The cells of the playfield. *)
Definition on_grid (p : Pos) : Prop :=
  exists i j,
    0 <= i <= (SCREEN_WIDTH - BLOCK_SIZE) / BLOCK_SIZE
    /\ 0 <= j <= (SCREEN_HEIGHT - BLOCK_SIZE) / BLOCK_SIZE
    /\ p = (i * BLOCK_SIZE, j * BLOCK_SIZE).

(** No cell of the playfield is free. *)
Definition covers_grid (occupied : list Pos) : Prop :=
  forall p, on_grid p -> In p occupied.

(** [play g g']: [g'] comes from [g] by input handling and updates that
    returned, in any order. *)
Inductive play (g : Game) : Game -> Prop :=
| play_here : play g g
| play_input (g' : Game) (events : list event) :
    play g g' -> play g (handle_input events g')
| play_update (g' g'' : Game) (fuel : nat) (rng rng' : RNG) :
    play g g' -> update fuel g' rng = Done (g'', rng') -> play g g''.

(** The games that a session started by [reset] can be in. *)
Definition reachable (g : Game) : Prop :=
  exists fuel rng g0 rng', reset fuel rng = Done (g0, rng') /\ play g0 g.

(** The games of a session in which no update has found a collision. *)
Inductive collision_free : Game -> Prop :=
| cf_reset (fuel : nat) (rng rng' : RNG) (g : Game) :
    reset fuel rng = Done (g, rng') -> collision_free g
| cf_input (g : Game) (events : list event) :
    collision_free g -> collision_free (handle_input events g)
| cf_update (g g' : Game) (fuel : nat) (rng rng' : RNG) :
    collision_free g ->
    update fuel g rng = Done (g', rng') ->
    check_collision (snake g') = Done false ->
    collision_free g'.

(** One of the four values of class Direction. *)
Definition is_direction (d : Pos) : Prop :=
  d = Direction.UP \/ d = Direction.DOWN
  \/ d = Direction.LEFT \/ d = Direction.RIGHT.

(** The vector that points the other way. *)
Definition reverse (d : Pos) : Pos := (- fst d, - snd d).

(** Each segment is one block away from the next, along one axis. *)
Fixpoint linked (l : list Pos) : Prop :=
  match l with
  | a :: (b :: _) as t =>
      is_direction (fst a - fst b, snd a - snd b) /\ linked t
  | _ => True
  end.

(** Both coordinates are multiples of the block size. *)
Definition aligned (p : Pos) : Prop :=
  fst p mod BLOCK_SIZE = 0 /\ snd p mod BLOCK_SIZE = 0.

(** [p] is inside the window. *)
Definition on_screen (p : Pos) : Prop :=
  0 <= fst p < SCREEN_WIDTH /\ 0 <= snd p < SCREEN_HEIGHT.

(** The events that clear [running] in [handle_input]. *)
Definition is_quit (e : event) : bool :=
  match e with
  | QUIT => true
  | KEYDOWN K_ESCAPE => true
  | _ => false
  end.

(** The direction that [handle_input] asks for when a key goes down. *)
Definition key_direction (k : key) : option Pos :=
  match k with
  | K_UP => Some Direction.UP
  | K_DOWN => Some Direction.DOWN
  | K_LEFT => Some Direction.LEFT
  | K_RIGHT => Some Direction.RIGHT
  | K_ESCAPE => None
  | K_OTHER => None
  end.

(** The loop of [run] once more, counting: beside the game it returns the
    number of the frame at which the test of [running] failed, that is,
    how many frames the loop has played when it started at frame 0. *)
Fixpoint run_loop_frames (fuel : nat) (inputs : nat -> list event)
         (frame : nat) (g : Game) : M (Game * nat) :=
  if running g then
    match fuel with
    | O => fun _ => OutOfFuel
    | S fuel' =>
        g' <- update fuel (handle_input (inputs frame) g) ;;
        run_loop_frames fuel' inputs (S frame) g'
    end
  else ret (g, frame).

Definition run_frames (fuel : nat) (inputs : nat -> list event)
  : M (Game * nat) :=
  g <- reset fuel ;;
  run_loop_frames fuel inputs O g.

(** * Sample games *)

(** A snake of four segments in a square, the head about to enter the cell
    of its last segment. *)
Definition square_snake (growing : bool) : Snake :=
  {| body := [(100, 100); (120, 100); (120, 120); (100, 120)];
     direction := Direction.DOWN;
     grow := growing |}.

(** The same snake in a game, the food away from it. *)
Definition square_game (growing : bool) : Game :=
  {| snake := square_snake growing; food := (0, 0); score := 0; running := true |}.

(** A random source that draws the three cells of the first snake, then
    the cell to its left. *)
Definition rng_demo : RNG :=
  fun n => match n with
           | 0%nat => 20 | 1%nat => 15
           | 2%nat => 19 | 3%nat => 15
           | 4%nat => 18 | 5%nat => 15
           | 6%nat => 17 | _ => 15
           end.

(** The first snake with the food right in front of it, and with the food
    in a corner. *)
Definition game_food_ahead : Game :=
  {| snake := Snake_init; food := (420, 300); score := 0; running := true |}.

Definition game_food_away : Game :=
  {| snake := Snake_init; food := (0, 0); score := 0; running := true |}.

(** The first snake after one move. *)
Definition moved_init : Snake :=
  {| body := [(420, 300); (400, 300); (380, 300)];
     direction := Direction.RIGHT; grow := false |}.

(** The game after [reset] when the random source is [rng_demo]. *)
Definition start_game : Game :=
  {| snake := Snake_init; food := (340, 300); score := 0; running := true |}.

(** Every cell of the playfield, column by column. *)
Definition full_board : list Pos :=
  list_prod (map (fun i => Z.of_nat i * BLOCK_SIZE) (seq 0 40))
            (map (fun j => Z.of_nat j * BLOCK_SIZE) (seq 0 30)).

(** A snake on every cell but (0, 0), about to grow onto that cell, where
    the food is. *)
Definition full_game : Game :=
  {| snake := {| body := tl full_board; direction := Direction.UP; grow := true |};
     food := (0, 0); score := 0; running := true |}.

(** The game right after the snake has left the screen on the right. *)
Definition game_over : Game :=
  {| snake := {| body := [(800, 300); (780, 300); (760, 300)];
                 direction := Direction.RIGHT; grow := false |};
     food := (340, 300); score := 0; running := false |}.

(** A random source that puts the first food right in front of the snake
    and the second one at (300, 300). *)
Definition rng_ahead : RNG :=
  fun n => match n with 0%nat => 21 | _ => 15 end.

(** The game after [reset] and one [update] with that source: the snake
    has eaten. *)
Definition fed_game : Game :=
  {| snake := {| body := [(420, 300); (400, 300); (380, 300)];
                 direction := Direction.RIGHT; grow := true |};
     food := (300, 300); score := 1; running := true |}.

(** A cell of the playfield, by column and row. *)
Definition cell (c : nat * nat) : Pos :=
  (Z.of_nat (fst c) * BLOCK_SIZE, Z.of_nat (snd c) * BLOCK_SIZE).

(** Column [c] from row [top] to the last row, downwards or upwards. *)
Definition column (c : nat) (top : nat) (down : bool) : list (nat * nat) :=
  let rows := seq top (30 - top) in
  map (fun j => (c, j)) (if down then rows else rev rows).

(** Column [c] above the row of the first snake. *)
Definition upper_column (c : nat) (down : bool) : list (nat * nat) :=
  let rows := seq 0 15 in
  map (fun j => (c, j)) (if down then rows else rev rows).

(** A path for the head through every cell that is free after the first
    move: on to the right border, through the upper half column by column
    to the left border, then through the lower half column by column back
    to the right border. *)
Definition winding_path : list (nat * nat) :=
  map (fun i => (i, 15%nat)) (seq 21 19)
  ++ flat_map (fun c => upper_column c (Nat.odd (39 - c))) (rev (seq 0 40))
  ++ flat_map (fun c => column c (if Nat.leb c 18 then 15 else 16) (Nat.even c))
       (seq 0 40).

(** The arrow key that leads from cell [a] to its neighbour [b]. *)
Definition key_to (a b : nat * nat) : key :=
  if Nat.ltb (fst a) (fst b) then K_RIGHT
  else if Nat.ltb (fst b) (fst a) then K_LEFT
  else if Nat.ltb (snd a) (snd b) then K_DOWN
  else K_UP.

(** One frame with one key for each cell of the path. *)
Fixpoint keys_along (from : nat * nat) (path : list (nat * nat))
  : list (list event) :=
  match path with
  | [] => []
  | c :: rest => [KEYDOWN (key_to from c)] :: keys_along c rest
  end.

(** A random source that puts each food on the next cell of the path. *)
Definition rng_path : RNG :=
  fun n => nth n (flat_map (fun c => [Z.of_nat (fst c); Z.of_nat (snd c)])
                           winding_path) 0.

(** Frame after frame: the events of a frame are handled, then [update]
    is called, as in the loop of [run] while [running] is true. *)
Fixpoint play_frames (fuel : nat) (frames : list (list event)) (g : Game)
  : M Game :=
  match frames with
  | [] => ret g
  | events :: rest =>
      g' <- update fuel (handle_input events g) ;;
      play_frames fuel rest g'
  end.

(** The value of a computation, without the random source. *)
Definition game_of {A} (o : outcome (A * RNG)) : outcome A :=
  match o with
  | Done (a, _) => Done a
  | IndexError => IndexError
  | OutOfFuel => OutOfFuel
  end.

(** The game after [reset] with the random source [rng_path], and what is
    left of the source then. *)
Definition first_game : Game :=
  {| snake := Snake_init; food := (420, 300); score := 0; running := true |}.

Definition rng_after_reset : RNG := rng_next (rng_next rng_path).

(** The segments behind the head after 1197 frames along the path. *)
Definition last_cell_tail : list Pos :=
  map cell (tl (rev (firstn 1197 winding_path))) ++ [(400, 300); (380, 300)].

(** The game after 1197 frames along the path, eating in each: the snake
    has 1199 segments, the food is on the last free cell, right in front
    of the head. *)
Definition last_cell_game : Game :=
  {| snake := {| body := (780, 340) :: last_cell_tail;
                 direction := Direction.UP; grow := true |};
     food := (780, 320); score := 1197; running := true |}.

(** * Properties *)

(** ** Equality and membership of positions *)

Lemma pos_eqb_eq (p q : Pos) : pos_eqb p q = true <-> p = q.
Proof.
  destruct p as [px py], q as [qx qy]; unfold pos_eqb; simpl.
  rewrite andb_true_iff, !Z.eqb_eq.
  split; [intros [-> ->]; reflexivity | intros E; inversion E; auto].
Qed.

Lemma pos_eqb_neq (p q : Pos) : pos_eqb p q = false <-> p <> q.
Proof.
  rewrite <- pos_eqb_eq. destruct (pos_eqb p q); split; congruence.
Qed.

Lemma pos_eqb_refl (p : Pos) : pos_eqb p p = true.
Proof. apply pos_eqb_eq; reflexivity. Qed.

Lemma contains_In (p : Pos) (l : list Pos) : contains p l = true <-> In p l.
Proof.
  unfold contains. rewrite existsb_exists. split.
  - intros [q [Hq E]]. apply pos_eqb_eq in E. subst; assumption.
  - intros Hp. exists p. split; [assumption | apply pos_eqb_refl].
Qed.

Lemma contains_not_In (p : Pos) (l : list Pos) : contains p l = false <-> ~ In p l.
Proof.
  rewrite <- contains_In. destruct (contains p l); split; congruence.
Qed.

Lemma removelast_length {A} (l : list A) :
  length (removelast l) = pred (length l).
Proof.
  induction l as [|a [|b l] IH]; simpl in *; auto.
Qed.

Lemma In_removelast {A} (x : A) (l : list A) : In x (removelast l) -> In x l.
Proof.
  induction l as [|a [|b l] IH]; simpl; auto.
  intros [E | H]; [left; assumption | right; apply IH; assumption].
Qed.

Lemma NoDup_removelast {A} (l : list A) : NoDup l -> NoDup (removelast l).
Proof.
  induction l as [|a l IH]; intros H; [assumption |].
  inversion H as [|? ? Ha Hl]; subst.
  destruct l as [|b l]; [constructor |].
  change (NoDup (a :: removelast (b :: l))).
  constructor; [| apply IH; assumption].
  intros Hin; apply Ha, In_removelast, Hin.
Qed.

(** ** Snake.move *)

Lemma move_empty (s : Snake) : body s = [] -> move s = IndexError.
Proof. unfold move; intros ->; reflexivity. Qed.

Lemma move_cons (s : Snake) (h : Pos) (rest : list Pos) :
  body s = h :: rest -> move s = Done (moved s h).
Proof.
  intros Hb. unfold move, moved. rewrite Hb. simpl item0. cbv iota.
  destruct (grow s); reflexivity.
Qed.

Lemma move_done (s s1 : Snake) :
  move s = Done s1 -> exists h rest, body s = h :: rest /\ s1 = moved s h.
Proof.
  intros Hm. destruct (body s) as [|h rest] eqn:Hb.
  - rewrite (move_empty s Hb) in Hm. discriminate Hm.
  - rewrite (move_cons s h rest Hb) in Hm. inversion Hm.
    exists h, rest. split; reflexivity.
Qed.

(** C1.  On a snake with a head, [move] returns; the new head is the old
    head plus the direction and comes first; without [grow] the last
    segment is removed and the length is the same, with [grow] the whole
    old body follows, the length is one more, and [grow] is false after
    the call in both cases. *)
Theorem move_spec (s : Snake) (h : Pos) (rest : list Pos)
    (Hbody : body s = h :: rest) :
  let new_head := (fst h + fst (direction s), snd h + snd (direction s)) in
  exists s', move s = Done s'
    /\ direction s' = direction s
    /\ grow s' = false
    /\ (grow s = false ->
          body s' = new_head :: removelast (body s)
          /\ length (body s') = length (body s))
    /\ (grow s = true ->
          body s' = new_head :: body s
          /\ length (body s') = S (length (body s))).
Proof.
  intros new_head. exists (moved s h).
  split; [apply (move_cons s h rest Hbody) |].
  unfold moved; simpl. fold new_head.
  split; [reflexivity |]. split; [reflexivity |].
  split; intros Hg; rewrite Hg; (split; [reflexivity |]).
  - simpl. rewrite removelast_length, Hbody. reflexivity.
  - reflexivity.
Qed.

Lemma move_spec_witness :
  exists s', move Snake_init = Done s'
    /\ body s' = [(420, 300); (400, 300); (380, 300)]
    /\ length (body s') = length (body Snake_init).
Proof.
  destruct (move_spec Snake_init (400, 300) [(380, 300); (360, 300)] eq_refl)
    as [s' [Hm [_ [_ [Hf _]]]]].
  exists s'. split; [exact Hm |].
  destruct (Hf eq_refl) as [Hb Hl]. split; [exact Hb | exact Hl].
Defined.

(** ** Snake.change_direction *)

(** C2.  A request opposite to the current direction (the two vectors add
    up to zero) leaves the snake as it is; any other request becomes the
    direction, and body and [grow] stay. *)
Theorem change_direction_spec (s : Snake) (requested : Pos) :
  (is_opposite (direction s) requested -> change_direction s requested = s)
  /\ (~ is_opposite (direction s) requested ->
        direction (change_direction s requested) = requested
        /\ body (change_direction s requested) = body s
        /\ grow (change_direction s requested) = grow s).
Proof.
  unfold is_opposite, change_direction.
  destruct (direction s) as [cx cy], requested as [nx ny]; simpl fst; simpl snd.
  split.
  - intros [-> ->]; reflexivity.
  - intros Hn.
    destruct (cx + nx) eqn:Ex; [destruct (cy + ny) eqn:Ey |..];
      try (repeat split; reflexivity).
    exfalso; apply Hn; split; reflexivity.
Qed.

Lemma change_direction_spec_witness :
  change_direction Snake_init Direction.LEFT = Snake_init
  /\ direction (change_direction Snake_init Direction.UP) = Direction.UP.
Proof.
  split.
  - apply (proj1 (change_direction_spec Snake_init Direction.LEFT)).
    split; reflexivity.
  - apply (proj2 (change_direction_spec Snake_init Direction.UP)).
    intros [H _]; discriminate H.
Defined.

(** ** Snake.check_collision *)

Lemma check_collision_empty (s : Snake) :
  body s = [] -> check_collision s = IndexError.
Proof. unfold check_collision; intros ->; reflexivity. Qed.

Lemma hit_true (head : Pos) (rest : list Pos) :
  hit head rest = true <-> In head rest \/ out_of_screen head.
Proof.
  unfold hit, out_of_screen.
  rewrite !orb_true_iff, contains_In, !Z.ltb_lt, !Z.geb_le.
  split; intros H; repeat (destruct H as [H | H]); auto; lia.
Qed.

Lemma hit_false (head : Pos) (rest : list Pos) :
  hit head rest = false <-> ~ In head rest /\ ~ out_of_screen head.
Proof.
  pose proof (hit_true head rest) as Ht.
  destruct (hit head rest); split.
  - discriminate.
  - intros [Hi Ho]. destruct (proj1 Ht eq_refl); contradiction.
  - intros _. split; intros H; [assert (X : In head rest \/ out_of_screen head) by (left; exact H) | assert (X : In head rest \/ out_of_screen head) by (right; exact H)];
      apply Ht in X; discriminate X.
  - reflexivity.
Qed.

Lemma check_collision_cons (s : Snake) (head : Pos) (rest : list Pos) :
  body s = head :: rest -> check_collision s = Done (hit head rest).
Proof.
  intros Hb. unfold check_collision, hit. rewrite Hb. simpl.
  rewrite orb_false_r. reflexivity.
Qed.

(** C3.  On a body with a head, [check_collision] returns true exactly when
    the head occurs among the other segments or lies off the screen. *)
Theorem check_collision_spec (s : Snake) (head : Pos) (rest : list Pos)
    (Hbody : body s = head :: rest) :
  exists b, check_collision s = Done b
    /\ (b = true <-> In head rest \/ out_of_screen head).
Proof.
  rewrite (check_collision_cons s head rest Hbody).
  exists (hit head rest). split; [reflexivity | apply hit_true].
Qed.

Lemma check_collision_spec_witness :
  check_collision Snake_init = Done false.
Proof.
  destruct (check_collision_spec Snake_init (400, 300)
              [(380, 300); (360, 300)] eq_refl) as [b [Hc Hb]].
  rewrite Hc. f_equal.
  destruct b; [| reflexivity].
  exfalso. destruct (proj1 Hb eq_refl) as [Hin | Hout].
  - simpl in Hin. destruct Hin as [E | [E | []]]; discriminate E.
  - unfold out_of_screen, SCREEN_WIDTH, SCREEN_HEIGHT in Hout. simpl in Hout. lia.
Defined.

(** ** Game.update *)

(** One equation for [update], by the outcome of the move. *)
Lemma update_eq (fuel : nat) (g : Game) (rng : RNG) (s1 : Snake)
    (h : Pos) (r : list Pos) :
  move (snake g) = Done s1 ->
  body s1 = h :: r ->
  update fuel g rng =
    if pos_eqb h (food g) then
      match generate_valid_position fuel (body s1) rng with
      | Done (f, rng') => Done (stop_if (hit h r) (ate s1 f g), rng')
      | IndexError => IndexError
      | OutOfFuel => OutOfFuel
      end
    else Done (stop_if (hit h r) (went_on s1 g), rng).
Proof.
  intros Hm Hb. unfold update, bind, lift, ret, Food_init.
  rewrite Hm. cbv beta iota. cbn [body snake].
  replace (item0 (body s1)) with (Done h) by (rewrite Hb; reflexivity).
  cbv beta iota.
  destruct (pos_eqb h (food g)).
  - destruct (generate_valid_position fuel (body s1) rng) as [[f rng'] | |];
      try reflexivity.
    cbn [snake].
    rewrite (check_collision_cons _ h r) by exact Hb.
    reflexivity.
  - cbn [snake]. rewrite (check_collision_cons _ h r) by exact Hb.
    reflexivity.
Qed.

Lemma update_empty (fuel : nat) (g : Game) (rng : RNG) :
  body (snake g) = [] -> update fuel g rng = IndexError.
Proof.
  intros Hb. unfold update, bind, lift. rewrite (move_empty _ Hb). reflexivity.
Qed.

Lemma removelast_snoc {A} (l : list A) (x : A) : removelast (l ++ [x]) = l.
Proof. apply removelast_last. Qed.

(** C4.  The head steps onto the cell of the last segment, which lies on
    the screen and occurs nowhere else in the body, and the food is not
    under the snake.  Without [grow] the last segment is popped before the
    check: no collision is found and [running] is not cleared.  With
    [grow] the last segment stays, the check finds the head on it and
    [running] becomes false. *)
Theorem tail_cell_step (g : Game) (h t : Pos) (front : list Pos)
    (fuel : nat) (rng : RNG)
    (Hbody : body (snake g) = h :: front ++ [t])
    (Hhead : (fst h + fst (direction (snake g)),
              snd h + snd (direction (snake g))) = t)
    (Honce : ~ In t (h :: front))
    (Hscreen : ~ out_of_screen t)
    (Hfood : ~ In (food g) (body (snake g))) :
  exists g', update fuel g rng = Done (g', rng)
    /\ (grow (snake g) = false ->
          body (snake g') = t :: h :: front
          /\ check_collision (snake g') = Done false
          /\ running g' = running g)
    /\ (grow (snake g) = true ->
          body (snake g') = t :: h :: front ++ [t]
          /\ check_collision (snake g') = Done true
          /\ running g' = false).
Proof.
  pose proof (move_cons (snake g) h (front ++ [t]) Hbody) as Hm.
  assert (Hne : pos_eqb t (food g) = false).
  { apply pos_eqb_neq. intros E. apply Hfood. rewrite <- E, Hbody.
    right. apply in_or_app. right. left. reflexivity. }
  destruct (grow (snake g)) eqn:Hg.
  - assert (Hb1 : body (moved (snake g) h) = t :: h :: front ++ [t]).
    { unfold moved; simpl. rewrite Hg, Hhead, Hbody. reflexivity. }
    rewrite (update_eq fuel g rng _ t (h :: front ++ [t]) Hm Hb1), Hne.
    assert (Hhit : hit t (h :: front ++ [t]) = true).
    { apply hit_true. left. right. apply in_or_app. right. left. reflexivity. }
    rewrite Hhit. eexists; split; [reflexivity |]. split; [discriminate |].
    intros _. simpl stop_if. cbn [snake set_running went_on running].
    split; [exact Hb1 |]. split; [| reflexivity].
    rewrite (check_collision_cons _ t (h :: front ++ [t]) Hb1).
    f_equal. exact Hhit.
  - assert (Hb1 : body (moved (snake g) h) = t :: h :: front).
    { unfold moved; simpl. rewrite Hg, Hhead, Hbody.
      change (h :: front ++ [t]) with ((h :: front) ++ [t]).
      rewrite removelast_snoc. reflexivity. }
    rewrite (update_eq fuel g rng _ t (h :: front) Hm Hb1), Hne.
    assert (Hhit : hit t (h :: front) = false).
    { apply hit_false. split; assumption. }
    rewrite Hhit. eexists; split; [reflexivity |]. split; [| discriminate].
    intros _. simpl stop_if. cbn [snake set_running went_on running].
    split; [exact Hb1 |]. split; [| reflexivity].
    rewrite (check_collision_cons _ t (h :: front) Hb1).
    f_equal. exact Hhit.
Qed.

Lemma tail_cell_step_witness :
  (exists g', update 1 (square_game false) (fun _ => 0) = Done (g', fun _ => 0)
     /\ check_collision (snake g') = Done false /\ running g' = true)
  /\ (exists g', update 1 (square_game true) (fun _ => 0) = Done (g', fun _ => 0)
     /\ check_collision (snake g') = Done true /\ running g' = false).
Proof.
  assert (Honce : ~ In (100, 120) [(100, 100); (120, 100); (120, 120)]).
  { simpl. intros [E | [E | [E | []]]]; discriminate E. }
  assert (Hscreen : ~ out_of_screen (100, 120)).
  { unfold out_of_screen, SCREEN_WIDTH, SCREEN_HEIGHT; simpl; lia. }
  assert (Hfood : forall b, ~ In (food (square_game b)) (body (snake (square_game b)))).
  { intros b. simpl. intros [E | [E | [E | [E | []]]]]; discriminate E. }
  split.
  - destruct (tail_cell_step (square_game false) (100, 100) (100, 120)
                [(120, 100); (120, 120)] 1%nat (fun _ => 0)
                eq_refl eq_refl Honce Hscreen (Hfood false))
      as [g' [Hu [Hf _]]].
    exists g'. split; [exact Hu |]. destruct (Hf eq_refl) as [_ [Hc Hr]].
    split; [exact Hc | exact Hr].
  - destruct (tail_cell_step (square_game true) (100, 100) (100, 120)
                [(120, 100); (120, 120)] 1%nat (fun _ => 0)
                eq_refl eq_refl Honce Hscreen (Hfood true))
      as [g' [Hu [_ Ht]]].
    exists g'. split; [exact Hu |]. destruct (Ht eq_refl) as [_ [Hc Hr]].
    split; [exact Hc | exact Hr].
Defined.

(** ** Food.generate_valid_position *)

Lemma generate_step (fuel : nat) (snake_body : list Pos) (rng : RNG) :
  generate_valid_position (S fuel) snake_body rng =
    if contains (candidate rng) snake_body
    then generate_valid_position fuel snake_body (rng_next (rng_next rng))
    else Done (candidate rng, rng_next (rng_next rng)).
Proof.
  simpl. unfold bind, randint, ret, candidate, rng_next.
  destruct (contains _ snake_body); reflexivity.
Qed.

Lemma candidate_on_grid (rng : RNG) : on_grid (candidate rng).
Proof.
  unfold on_grid, candidate.
  eexists; eexists; split; [| split; [| reflexivity]].
  - pose proof (Z.mod_pos_bound (rng 0%nat)
      ((SCREEN_WIDTH - BLOCK_SIZE) / BLOCK_SIZE - 0 + 1)) as H.
    change ((SCREEN_WIDTH - BLOCK_SIZE) / BLOCK_SIZE) with 39 in *. lia.
  - pose proof (Z.mod_pos_bound (rng 1%nat)
      ((SCREEN_HEIGHT - BLOCK_SIZE) / BLOCK_SIZE - 0 + 1)) as H.
    change ((SCREEN_HEIGHT - BLOCK_SIZE) / BLOCK_SIZE) with 29 in *. lia.
Qed.

(** Every cell of the playfield can be drawn. *)
Lemma on_grid_candidate (p : Pos) :
  on_grid p -> exists rng, candidate rng = p.
Proof.
  intros [i [j [Hi [Hj ->]]]].
  exists (fun n => match n with O => i | _ => j end).
  unfold candidate.
  change ((SCREEN_WIDTH - BLOCK_SIZE) / BLOCK_SIZE) with 39 in *.
  change ((SCREEN_HEIGHT - BLOCK_SIZE) / BLOCK_SIZE) with 29 in *.
  rewrite !Z.mod_small by lia. reflexivity.
Qed.

Lemma generate_sound (fuel : nat) (snake_body : list Pos) (rng rng' : RNG)
    (p : Pos) :
  generate_valid_position fuel snake_body rng = Done (p, rng') ->
  ~ In p snake_body /\ on_grid p.
Proof.
  revert rng. induction fuel as [|fuel IH]; intros rng H.
  - discriminate H.
  - rewrite generate_step in H.
    destruct (contains (candidate rng) snake_body) eqn:Hc.
    + apply (IH _ H).
    + inversion H; subst. split.
      * apply contains_not_In; assumption.
      * apply candidate_on_grid.
Qed.

Lemma nth_candidate_0 (rng : RNG) : nth_candidate rng 0 = candidate rng.
Proof. reflexivity. Qed.

Lemma nth_candidate_S (rng : RNG) (k : nat) :
  nth_candidate (rng_next (rng_next rng)) k = nth_candidate rng (S k).
Proof.
  unfold nth_candidate, candidate, rng_next.
  replace (S (S (2 * k + 0)))%nat with (2 * S k + 0)%nat by lia.
  replace (S (S (2 * k + 1)))%nat with (2 * S k + 1)%nat by lia.
  reflexivity.
Qed.

(** The loop returns as soon as a drawn cell is free. *)
Lemma generate_returns (fuel : nat) (snake_body : list Pos) (rng : RNG)
    (k : nat) :
  (k < fuel)%nat ->
  ~ In (nth_candidate rng k) snake_body ->
  exists p rng', generate_valid_position fuel snake_body rng = Done (p, rng').
Proof.
  revert rng k. induction fuel as [|fuel IH]; intros rng k Hk Hfree; [lia |].
  rewrite generate_step.
  destruct (contains (candidate rng) snake_body) eqn:Hc.
  - destruct k as [|k].
    + rewrite nth_candidate_0 in Hfree.
      apply contains_In in Hc. contradiction.
    + apply (IH _ k); [lia |]. rewrite nth_candidate_S. exact Hfree.
  - eexists; eexists; reflexivity.
Qed.

(** On a full board the loop never returns. *)
Lemma generate_full (fuel : nat) (occupied : list Pos) (rng : RNG) :
  covers_grid occupied ->
  generate_valid_position fuel occupied rng = OutOfFuel.
Proof.
  intros Hfull. revert rng. induction fuel as [|fuel IH]; intros rng.
  - reflexivity.
  - rewrite generate_step.
    replace (contains (candidate rng) occupied) with true; [apply IH |].
    symmetry. apply contains_In, Hfull, candidate_on_grid.
Qed.

(** C10.  A position returned by [generate_valid_position] has both
    coordinates multiples of BLOCK_SIZE, from 0 up to SCREEN_WIDTH -
    BLOCK_SIZE and SCREEN_HEIGHT - BLOCK_SIZE. *)
Theorem generate_on_screen (fuel : nat) (snake_body : list Pos)
    (rng rng' : RNG) (p : Pos)
    (Hret : generate_valid_position fuel snake_body rng = Done (p, rng')) :
  fst p mod BLOCK_SIZE = 0
  /\ 0 <= fst p <= SCREEN_WIDTH - BLOCK_SIZE
  /\ snd p mod BLOCK_SIZE = 0
  /\ 0 <= snd p <= SCREEN_HEIGHT - BLOCK_SIZE.
Proof.
  destruct (generate_sound _ _ _ _ _ Hret) as [_ [i [j [Hi [Hj ->]]]]].
  change ((SCREEN_WIDTH - BLOCK_SIZE) / BLOCK_SIZE) with 39 in Hi.
  change ((SCREEN_HEIGHT - BLOCK_SIZE) / BLOCK_SIZE) with 29 in Hj.
  unfold BLOCK_SIZE, SCREEN_WIDTH, SCREEN_HEIGHT. simpl fst; simpl snd.
  rewrite !Z.mod_mul by lia. lia.
Qed.

Lemma generate_on_screen_witness :
  generate_valid_position 4 (body Snake_init) rng_demo
    = Done ((340, 300), fun n => rng_demo (S (S (S (S (S (S (S (S n)))))))))
  /\ 340 mod BLOCK_SIZE = 0 /\ 0 <= 340 <= SCREEN_WIDTH - BLOCK_SIZE.
Proof.
  assert (H : generate_valid_position 4 (body Snake_init) rng_demo
    = Done ((340, 300), fun n => rng_demo (S (S (S (S (S (S (S (S n))))))))))
    by reflexivity.
  split; [exact H |].
  destruct (generate_on_screen _ _ _ _ _ H) as [H1 [H2 _]].
  split; [exact H1 | exact H2].
Defined.

(** ** Eating the food *)

(** C5, as the code has it, for the steps in which the placement of the
    food returns.  [update] on a game whose snake moves to [s1] with head [h]; if
    the head is on the food, some cell drawn within the fuel is free, so
    that the new food is found.  Then [update] returns, and: when the head
    is on the food, [grow] is set, the score is one more and the food has
    moved to a cell off the snake; when it is not, [grow] is false and
    score and food are as before.  The score never goes down. *)
Theorem update_food (g : Game) (fuel : nat) (rng : RNG) (s1 : Snake)
    (h : Pos) (r : list Pos)
    (Hmove : move (snake g) = Done s1)
    (Hbody : body s1 = h :: r)
    (Hfree : h = food g ->
             exists k, (k < fuel)%nat /\ ~ In (nth_candidate rng k) (body s1)) :
  exists g' rng', update fuel g rng = Done (g', rng')
    /\ body (snake g') = body s1
    /\ (h = food g ->
          grow (snake g') = true
          /\ score g' = score g + 1
          /\ food g' <> food g
          /\ ~ In (food g') (body (snake g')))
    /\ (h <> food g ->
          grow (snake g') = false
          /\ score g' = score g
          /\ food g' = food g
          /\ rng' = rng)
    /\ score g <= score g'.
Proof.
  rewrite (update_eq fuel g rng s1 h r Hmove Hbody).
  destruct (pos_eqb h (food g)) eqn:He.
  - apply pos_eqb_eq in He.
    destruct (Hfree He) as [k [Hk Hk']].
    destruct (generate_returns fuel (body s1) rng k Hk Hk') as [f [rng' Hgen]].
    rewrite Hgen. destruct (generate_sound _ _ _ _ _ Hgen) as [Hnot _].
    exists (stop_if (hit h r) (ate s1 f g)), rng'.
    split; [reflexivity |].
    assert (Hfields : forall c,
      snake (stop_if c (ate s1 f g)) = snake (ate s1 f g)
      /\ food (stop_if c (ate s1 f g)) = f
      /\ score (stop_if c (ate s1 f g)) = score g + 1)
      by (intros []; repeat split).
    destruct (Hfields (hit h r)) as [Hs [Hf Hsc]].
    rewrite Hs, Hf, Hsc. simpl.
    split; [reflexivity |]. split; [| split; [intros Hn; contradiction | lia]].
    intros _. repeat split; auto.
    intros E. apply Hnot. rewrite E, <- He, Hbody. left; reflexivity.
  - apply pos_eqb_neq in He.
    exists (stop_if (hit h r) (went_on s1 g)), rng.
    split; [reflexivity |].
    assert (Hfields : forall c,
      snake (stop_if c (went_on s1 g)) = s1
      /\ food (stop_if c (went_on s1 g)) = food g
      /\ score (stop_if c (went_on s1 g)) = score g)
      by (intros []; repeat split).
    destruct (Hfields (hit h r)) as [Hs [Hf Hsc]].
    rewrite Hs, Hf, Hsc.
    split; [reflexivity |]. split; [intros E; contradiction | split; [| lia]].
    intros _. repeat split; auto.
    destruct (move_done _ _ Hmove) as [h0 [rest0 [_ ->]]]. reflexivity.
Qed.

Lemma update_food_witness :
  (exists g' rng', update 4 game_food_ahead rng_demo = Done (g', rng')
     /\ score g' = 1 /\ grow (snake g') = true /\ food g' <> (420, 300))
  /\ (exists g' rng', update 4 game_food_away rng_demo = Done (g', rng')
     /\ score g' = 0 /\ grow (snake g') = false /\ food g' = (0, 0)).
Proof.
  split.
  - assert (Hfree : (420, 300) = food game_food_ahead ->
      exists k, (k < 4)%nat /\ ~ In (nth_candidate rng_demo k) (body moved_init)).
    { intros _. exists 2%nat. split; [lia |].
      simpl. intros [E | [E | [E | []]]]; discriminate E. }
    destruct (update_food game_food_ahead 4 rng_demo moved_init (420, 300)
                [(400, 300); (380, 300)] eq_refl eq_refl Hfree)
      as [g' [rng' [Hu [_ [Hyes _]]]]].
    exists g', rng'. split; [exact Hu |].
    destruct (Hyes eq_refl) as [Hg [Hs [Hf _]]].
    split; [exact Hs |]. split; [exact Hg | exact Hf].
  - assert (Hfree : (420, 300) = food game_food_away ->
      exists k, (k < 4)%nat /\ ~ In (nth_candidate rng_demo k) (body moved_init)).
    { intros E; discriminate E. }
    destruct (update_food game_food_away 4 rng_demo moved_init (420, 300)
                [(400, 300); (380, 300)] eq_refl eq_refl Hfree)
      as [g' [rng' [Hu [_ [_ [Hno _]]]]]].
    exists g', rng'. split; [exact Hu |].
    assert (Hne : (420, 300) <> food game_food_away) by (intros E; discriminate E).
    destruct (Hno Hne) as [Hg [Hs [Hf _]]].
    split; [exact Hs |]. split; [exact Hg | exact Hf].
Defined.

(** ** Sessions *)

Lemma change_direction_frame (s : Snake) (d : Pos) :
  body (change_direction s d) = body s /\ grow (change_direction s d) = grow s.
Proof.
  unfold change_direction. destruct (direction s) as [cx cy], d as [nx ny].
  destruct (cx + nx); [destruct (cy + ny) |..]; split; reflexivity.
Qed.

Lemma handle_event_frame (g : Game) (e : event) :
  body (snake (handle_event g e)) = body (snake g)
  /\ grow (snake (handle_event g e)) = grow (snake g)
  /\ food (handle_event g e) = food g
  /\ score (handle_event g e) = score g.
Proof.
  destruct e as [|[]|]; simpl; repeat split;
    try reflexivity; apply change_direction_frame.
Qed.

Lemma handle_input_frame (events : list event) (g : Game) :
  body (snake (handle_input events g)) = body (snake g)
  /\ grow (snake (handle_input events g)) = grow (snake g)
  /\ food (handle_input events g) = food g
  /\ score (handle_input events g) = score g.
Proof.
  unfold handle_input. revert g.
  induction events as [|e events IH]; intros g; simpl.
  - repeat split.
  - destruct (IH (handle_event g e)) as [Hb [Hg [Hf Hs]]].
    destruct (handle_event_frame g e) as [Hb' [Hg' [Hf' Hs']]].
    rewrite Hb, Hg, Hf, Hs. repeat split; assumption.
Qed.

Lemma reset_done (fuel : nat) (rng rng' : RNG) (g0 : Game) :
  reset fuel rng = Done (g0, rng') ->
  exists f, generate_valid_position fuel (body Snake_init) rng = Done (f, rng')
    /\ g0 = {| snake := Snake_init; food := f; score := 0; running := true |}.
Proof.
  unfold reset, bind, ret, Food_init.
  destruct (generate_valid_position fuel (body Snake_init) rng)
    as [[f r] | |]; intros H; inversion H.
  exists f. split; reflexivity.
Qed.

Lemma stop_if_frame (c : bool) (g : Game) :
  snake (stop_if c g) = snake g /\ food (stop_if c g) = food g
  /\ score (stop_if c g) = score g.
Proof. destruct c; repeat split. Qed.

(** What an [update] that returned has done. *)
Lemma update_done (fuel : nat) (g g' : Game) (rng rng' : RNG) :
  update fuel g rng = Done (g', rng') ->
  exists h rest nh r,
    body (snake g) = h :: rest
    /\ body (moved (snake g) h) = nh :: r
    /\ body (snake g') = nh :: r
    /\ running g' = (if hit nh r then false else running g)
    /\ ((nh = food g /\ score g' = score g + 1
         /\ ~ In (food g') (body (snake g')))
        \/ (nh <> food g /\ score g' = score g /\ food g' = food g)).
Proof.
  intros Hu.
  assert (Hb : exists h rest, body (snake g) = h :: rest).
  { destruct (body (snake g)) as [|h rest] eqn:Hb; [| eauto].
    rewrite (update_empty fuel g rng Hb) in Hu. discriminate Hu. }
  destruct Hb as [h [rest Hb]].
  assert (Hb1 : exists nh r, body (moved (snake g) h) = nh :: r)
    by (unfold moved; simpl; eauto).
  destruct Hb1 as [nh [r Hb1]].
  exists h, rest, nh, r. split; [exact Hb |]. split; [exact Hb1 |].
  rewrite (update_eq fuel g rng _ nh r (move_cons _ h rest Hb) Hb1) in Hu.
  destruct (pos_eqb nh (food g)) eqn:He.
  - destruct (generate_valid_position fuel _ rng) as [[f rg] | |] eqn:Hgen;
      inversion Hu; subst; clear Hu.
    apply generate_sound in Hgen. destruct Hgen as [Hnot _].
    destruct (stop_if_frame (hit nh r) (ate (moved (snake g) h) f g))
      as [Hs [Hf Hsc]].
    rewrite Hs, Hf, Hsc. split; [exact Hb1 |].
    split; [destruct (hit nh r); reflexivity |].
    left. apply pos_eqb_eq in He. split; [exact He |].
    split; [reflexivity | exact Hnot].
  - inversion Hu; subst; clear Hu.
    destruct (stop_if_frame (hit nh r) (went_on (moved (snake g) h) g))
      as [Hs [Hf Hsc]].
    rewrite Hs, Hf, Hsc. split; [exact Hb1 |].
    split; [destruct (hit nh r); reflexivity |].
    right. apply pos_eqb_neq in He. split; [exact He |].
    split; reflexivity.
Qed.

Lemma moved_tail_incl (s : Snake) (h nh : Pos) (r : list Pos) (p : Pos) :
  body (moved s h) = nh :: r -> In p r -> In p (body s).
Proof.
  unfold moved; simpl. intros E Hp. inversion E; subst.
  destruct (grow s); [assumption | apply In_removelast; assumption].
Qed.

Lemma moved_tail_NoDup (s : Snake) (h nh : Pos) (r : list Pos) :
  body (moved s h) = nh :: r -> NoDup (body s) -> NoDup r.
Proof.
  unfold moved; simpl. intros E Hn. inversion E; subst.
  destruct (grow s); [assumption | apply NoDup_removelast; assumption].
Qed.

Lemma update_keeps_food_off (fuel : nat) (g g' : Game) (rng rng' : RNG) :
  update fuel g rng = Done (g', rng') ->
  ~ In (food g) (body (snake g)) ->
  ~ In (food g') (body (snake g')).
Proof.
  intros Hu Hoff.
  destruct (update_done fuel g g' rng rng' Hu)
    as [h [rest [nh [r [Hb [Hm [Hb' [_ [[_ [_ Hnew]] | [Hne [_ Hsame]]]]]]]]]]].
  - exact Hnew.
  - rewrite Hsame, Hb'. intros [E | Hin].
    + apply Hne. exact E.
    + apply Hoff. apply (moved_tail_incl _ h nh r _ Hm Hin).
Qed.

Lemma play_food_off (g g' : Game) :
  play g g' ->
  ~ In (food g) (body (snake g)) ->
  ~ In (food g') (body (snake g')).
Proof.
  intros Hp Hoff. induction Hp as [| g' events Hp IH | g' g'' fuel rng rng' Hp IH Hu].
  - exact Hoff.
  - destruct (handle_input_frame events g') as [Hb [_ [Hf _]]].
    rewrite Hb, Hf. exact IH.
  - apply (update_keeps_food_off fuel g' g'' rng rng' Hu IH).
Qed.

Lemma play_score (g g' : Game) : play g g' -> score g <= score g'.
Proof.
  intros Hp. induction Hp as [| g' events Hp IH | g' g'' fuel rng rng' Hp IH Hu].
  - lia.
  - destruct (handle_input_frame events g') as [_ [_ [_ Hs]]]. lia.
  - destruct (update_done fuel g' g'' rng rng' Hu)
      as [h [rest [nh [r [_ [_ [_ [_ [[_ [Hs _]] | [_ [Hs _]]]]]]]]]]]; lia.
Qed.

(** No session has a snake without a head: [move], [check_collision] and
    [update] do not raise IndexError there. *)
Lemma reachable_body (g : Game) : reachable g -> body (snake g) <> [].
Proof.
  intros [fuel [rng [g0 [rng' [Hr Hp]]]]].
  induction Hp as [| g' events Hp IH | g' g'' fuel' rng1 rng2 Hp IH Hu].
  - destruct (reset_done _ _ _ _ Hr) as [f [_ ->]]. discriminate.
  - destruct (handle_input_frame events g') as [Hb _]. rewrite Hb. exact IH.
  - destruct (update_done fuel' g' g'' rng1 rng2 Hu)
      as [h [rest [nh [r [_ [_ [Hb' _]]]]]]].
    rewrite Hb'. discriminate.
Qed.

(** C6.  A position returned by [generate_valid_position] is not in the
    body it was given; and in every game that a session can be in (so in
    every running one) the food is not in the body of the snake. *)
Theorem food_off_snake :
  (forall fuel snake_body rng rng' p,
      generate_valid_position fuel snake_body rng = Done (p, rng') ->
      ~ In p snake_body)
  /\ (forall g, reachable g -> ~ In (food g) (body (snake g))).
Proof.
  split.
  - intros fuel snake_body rng rng' p H.
    apply (generate_sound _ _ _ _ _ H).
  - intros g [fuel [rng [g0 [rng' [Hr Hp]]]]].
    apply (play_food_off g0 g Hp).
    destruct (reset_done _ _ _ _ Hr) as [f [Hgen ->]]. simpl food; simpl snake.
    apply (generate_sound _ _ _ _ _ Hgen).
Qed.

Lemma reset_demo :
  reset 4 rng_demo
    = Done (start_game, fun n => rng_demo (S (S (S (S (S (S (S (S n))))))))).
Proof. reflexivity. Qed.

Lemma start_game_reachable : reachable start_game.
Proof.
  exists 4%nat, rng_demo, start_game. eexists.
  split; [exact reset_demo | apply play_here].
Qed.

Lemma food_off_snake_witness :
  ~ In (340, 300) (body Snake_init)
  /\ ~ In (food start_game) (body (snake start_game)).
Proof.
  split.
  - apply (proj1 food_off_snake 4%nat (body Snake_init) rng_demo
             (fun n => rng_demo (S (S (S (S (S (S (S (S n)))))))))).
    reflexivity.
  - apply (proj2 food_off_snake start_game).
    exists 4%nat, rng_demo, start_game. eexists.
    split; [reflexivity | apply play_here].
Defined.

(** ** Distinct segments *)

Lemma NoDup_Snake_init : NoDup (body Snake_init).
Proof.
  simpl. repeat constructor; simpl;
    intros H; repeat (destruct H as [H | H]; try discriminate H); exact H.
Qed.

Lemma collision_free_NoDup (g : Game) :
  collision_free g -> NoDup (body (snake g)).
Proof.
  intros H.
  induction H as [fuel rng rng' g Hr | g events H IH | g g' fuel rng rng' H IH Hu Hc].
  - destruct (reset_done _ _ _ _ Hr) as [f [_ ->]]. apply NoDup_Snake_init.
  - destruct (handle_input_frame events g) as [Hb _]. rewrite Hb. exact IH.
  - destruct (update_done fuel g g' rng rng' Hu)
      as [h [rest [nh [r [Hb [Hm [Hb' _]]]]]]].
    rewrite (check_collision_cons _ nh r Hb') in Hc.
    assert (Hhit : hit nh r = false) by (inversion Hc; reflexivity).
    apply hit_false in Hhit. destruct Hhit as [Hnot _].
    rewrite Hb'. constructor; [exact Hnot |].
    apply (moved_tail_NoDup _ h nh r Hm IH).
Qed.

Lemma collision_free_reachable (g : Game) : collision_free g -> reachable g.
Proof.
  intros H.
  induction H as [fuel rng rng' g Hr | g events H IH | g g' fuel rng rng' H IH Hu Hc].
  - exists fuel, rng, g, rng'. split; [exact Hr | apply play_here].
  - destruct IH as [fuel [rng [g0 [rng' [Hr Hp]]]]].
    exists fuel, rng, g0, rng'. split; [exact Hr | apply play_input, Hp].
  - destruct IH as [fuel0 [rng0 [g0 [rng0' [Hr Hp]]]]].
    exists fuel0, rng0, g0, rng0'. split; [exact Hr |].
    apply (play_update g0 g g' fuel rng rng' Hp Hu).
Qed.

Lemma NoDup_cons_or (nh : Pos) (r : list Pos) :
  NoDup r -> NoDup (nh :: r) \/ hit nh r = true.
Proof.
  intros Hr. destruct (contains nh r) eqn:Hc.
  - right. apply hit_true. left. apply contains_In. exact Hc.
  - left. constructor; [apply contains_not_In; exact Hc | exact Hr].
Qed.

(** C9.  In a session in which no update has found a collision the
    segments of the snake are pairwise distinct.  The next move returns,
    and if two segments then share a position, [check_collision] is true
    on that body; so an update from such a game leaves distinct segments
    or finds the collision and clears [running]. *)
Theorem segments_distinct (g : Game) (Hfree : collision_free g) :
  NoDup (body (snake g))
  /\ (exists s1, move (snake g) = Done s1
        /\ (~ NoDup (body s1) -> check_collision s1 = Done true))
  /\ (forall fuel rng g' rng',
        update fuel g rng = Done (g', rng') ->
        NoDup (body (snake g'))
        \/ (check_collision (snake g') = Done true /\ running g' = false)).
Proof.
  pose proof (collision_free_NoDup g Hfree) as Hnd.
  split; [exact Hnd |]. split.
  - destruct (body (snake g)) as [|h rest] eqn:Hb.
    + exfalso.
      apply (reachable_body g (collision_free_reachable g Hfree)). exact Hb.
    + exists (moved (snake g) h). split; [apply (move_cons _ h rest Hb) |].
      assert (Hm : exists nh r, body (moved (snake g) h) = nh :: r)
        by (unfold moved; simpl; eauto).
      destruct Hm as [nh [r Hm]]. rewrite <- Hb in Hnd.
      rewrite (check_collision_cons _ nh r Hm), Hm.
      destruct (NoDup_cons_or nh r (moved_tail_NoDup _ h nh r Hm Hnd)) as [Hn | Hh].
      * intros C. contradiction.
      * intros _. f_equal. exact Hh.
  - intros fuel rng g' rng' Hu.
    destruct (update_done fuel g g' rng rng' Hu)
      as [h [rest [nh [r [Hb [Hm [Hb' [Hrun _]]]]]]]].
    rewrite (check_collision_cons _ nh r Hb'), Hb', Hrun.
    destruct (NoDup_cons_or nh r (moved_tail_NoDup _ h nh r Hm Hnd)) as [Hn | Hh].
    + left. exact Hn.
    + right. rewrite Hh. split; reflexivity.
Qed.

Lemma segments_distinct_witness :
  collision_free start_game
  /\ NoDup (body (snake start_game))
  /\ exists s1, move (snake start_game) = Done s1.
Proof.
  assert (H : collision_free start_game).
  { apply (cf_reset 4%nat rng_demo
             (fun n => rng_demo (S (S (S (S (S (S (S (S n))))))))) start_game).
    reflexivity. }
  split; [exact H |].
  destruct (segments_distinct start_game H) as [Hn [[s1 [Hm _]] _]].
  split; [exact Hn |]. exists s1. exact Hm.
Defined.

(** ** A full board *)

Lemma full_board_covers : covers_grid full_board.
Proof.
  intros p [i [j [Hi [Hj ->]]]].
  change ((SCREEN_WIDTH - BLOCK_SIZE) / BLOCK_SIZE) with 39 in Hi.
  change ((SCREEN_HEIGHT - BLOCK_SIZE) / BLOCK_SIZE) with 29 in Hj.
  unfold full_board. apply in_prod.
  - apply in_map_iff. exists (Z.to_nat i). split.
    + rewrite Z2Nat.id by lia. reflexivity.
    + apply in_seq. lia.
  - apply in_map_iff. exists (Z.to_nat j). split.
    + rewrite Z2Nat.id by lia. reflexivity.
    + apply in_seq. lia.
Qed.

(** On the full board no amount of fuel makes the placement return
    anything, whatever the random source. *)
Lemma full_board_no_outcome :
  covers_grid full_board
  /\ ~ (exists fuel rng, generate_valid_position fuel full_board rng <> OutOfFuel).
Proof.
  split; [exact full_board_covers |].
  intros [fuel [rng H]]. apply H.
  apply generate_full, full_board_covers.
Qed.

(** C7, as the code has it.  When the cells given as occupied cover the
    whole playfield, [generate_valid_position] is still in its loop after
    any number of iterations, for every random source; and an update in
    which the head reaches the food while the moved body covers the
    playfield does not return either. *)
Theorem full_board_placement (occupied : list Pos)
    (Hfull : covers_grid occupied) :
  (forall fuel rng, generate_valid_position fuel occupied rng = OutOfFuel)
  /\ (forall g s1 h r fuel rng,
        move (snake g) = Done s1 ->
        body s1 = occupied ->
        occupied = h :: r ->
        h = food g ->
        update fuel g rng = OutOfFuel).
Proof.
  split.
  - intros fuel rng. apply generate_full, Hfull.
  - intros g s1 h r fuel rng Hm Hb Ho He.
    rewrite (update_eq fuel g rng s1 h r Hm) by (rewrite Hb; exact Ho).
    replace (pos_eqb h (food g)) with true by (symmetry; apply pos_eqb_eq, He).
    rewrite Hb, generate_full by exact Hfull. reflexivity.
Qed.

Lemma full_board_placement_witness :
  covers_grid full_board
  /\ generate_valid_position 1000 full_board rng_demo = OutOfFuel
  /\ update 1000 full_game rng_demo = OutOfFuel.
Proof.
  split; [exact full_board_covers |].
  destruct (full_board_placement full_board full_board_covers) as [Hgen Hupd].
  split; [apply Hgen |].
  apply (Hupd full_game
           {| body := full_board; direction := Direction.UP; grow := false |}
           (0, 0) (tl full_board)); reflexivity.
Defined.

(** ** After the game is over *)

(** [game_over] is what [run] returns when no key is pressed and the
    random source is [rng_demo]: the snake leaves the screen on the right.
    [update] has no test of [running]: called on that finished game it
    moves the snake once more. *)
Lemma update_after_game_over :
  (exists rng', run 21 (fun _ => []) rng_demo = Done (game_over, rng'))
  /\ running game_over = false
  /\ exists g', update 1 game_over rng_demo = Done (g', rng_demo)
       /\ body (snake g') = [(820, 300); (800, 300); (780, 300)]
       /\ body (snake g') <> body (snake game_over).
Proof.
  split; [eexists; vm_compute; reflexivity |].
  split; [reflexivity |].
  eexists. split; [reflexivity |]. split; [reflexivity |].
  simpl. intros E. discriminate E.
Qed.

Lemma run_loop_running_false (fuel : nat) (inputs : nat -> list event)
    (frame : nat) (g : Game) (rng : RNG) :
  running g = false -> run_loop fuel inputs frame g rng = Done (g, rng).
Proof.
  intros Hstop. destruct fuel; simpl; rewrite Hstop; reflexivity.
Qed.

Lemma run_loop_ends_stopped (fuel : nat) (inputs : nat -> list event)
    (frame : nat) (g g' : Game) (rng rng' : RNG) :
  run_loop fuel inputs frame g rng = Done (g', rng') -> running g' = false.
Proof.
  revert frame g rng. induction fuel as [|fuel IH]; intros frame g rng H.
  - simpl in H. destruct (running g) eqn:Hr; [discriminate H |].
    inversion H; subst. exact Hr.
  - simpl in H. destruct (running g) eqn:Hr.
    + unfold bind in H.
      destruct (update (S fuel) (handle_input (inputs frame) g) rng)
        as [[g1 rng1] | |]; try discriminate H.
      apply (IH _ _ _ H).
    + inversion H; subst. exact Hr.
Qed.

(** C8, as the code has it.  The test of [running] is in the loop of
    [run], at the top of each iteration.  When the loop tests [running]
    and finds it false it returns at once, whatever the pending inputs:
    body, food and score are as they were and no random number is drawn.
    A loop that has returned has left [running] false, so that running
    the loop again changes nothing. *)
Theorem run_loop_stopped (fuel : nat) (inputs : nat -> list event)
    (frame : nat) (g : Game) (rng : RNG) :
  (running g = false -> run_loop fuel inputs frame g rng = Done (g, rng))
  /\ (forall g' rng',
        run_loop fuel inputs frame g rng = Done (g', rng') ->
        running g' = false
        /\ forall fuel2 inputs2 frame2 rng2,
             run_loop fuel2 inputs2 frame2 g' rng2 = Done (g', rng2)).
Proof.
  split.
  - apply run_loop_running_false.
  - intros g' rng' H.
    pose proof (run_loop_ends_stopped _ _ _ _ _ _ _ H) as Hstop.
    split; [exact Hstop |].
    intros fuel2 inputs2 frame2 rng2.
    apply run_loop_running_false, Hstop.
Qed.

Lemma run_loop_stopped_witness :
  run_loop 5 (fun _ => [KEYDOWN K_UP]) 0 game_over rng_demo
    = Done (game_over, rng_demo).
Proof.
  apply (proj1 (run_loop_stopped 5 (fun _ => [KEYDOWN K_UP]) 0 game_over rng_demo)).
  reflexivity.
Defined.

(** * Further properties of the code *)

(** ** The placement loop in detail *)

Lemma generate_first_free_aux (fuel : nat) (snake_body : list Pos)
    (rng : RNG) (k : nat) :
  (k < fuel)%nat ->
  (forall j, (j < k)%nat -> In (nth_candidate rng j) snake_body) ->
  ~ In (nth_candidate rng k) snake_body ->
  exists rng',
    generate_valid_position fuel snake_body rng
      = Done (nth_candidate rng k, rng')
    /\ forall n, rng' n = rng (2 * S k + n)%nat.
Proof.
  revert rng k. induction fuel as [|fuel IH]; intros rng k Hk Hocc Hfree; [lia |].
  rewrite generate_step. destruct k as [|k].
  - rewrite nth_candidate_0 in Hfree.
    apply contains_not_In in Hfree. rewrite Hfree.
    eexists. split; [reflexivity |]. intros n. reflexivity.
  - assert (H0 : contains (candidate rng) snake_body = true).
    { apply contains_In. rewrite <- nth_candidate_0. apply Hocc. lia. }
    rewrite H0.
    destruct (IH (rng_next (rng_next rng)) k) as [rng' [Hgen Hrng]].
    + lia.
    + intros j Hj. rewrite nth_candidate_S. apply Hocc. lia.
    + rewrite nth_candidate_S. exact Hfree.
    + exists rng'. rewrite nth_candidate_S in Hgen. split; [exact Hgen |].
      intros n. rewrite Hrng. unfold rng_next. f_equal. lia.
Qed.

Lemma generate_all_taken (fuel : nat) (snake_body : list Pos) (rng : RNG) :
  (forall j, (j < fuel)%nat -> In (nth_candidate rng j) snake_body) ->
  generate_valid_position fuel snake_body rng = OutOfFuel.
Proof.
  revert rng. induction fuel as [|fuel IH]; intros rng Hocc; [reflexivity |].
  rewrite generate_step.
  assert (H0 : contains (candidate rng) snake_body = true).
  { apply contains_In. rewrite <- nth_candidate_0. apply Hocc. lia. }
  rewrite H0. apply IH. intros j Hj. rewrite nth_candidate_S. apply Hocc. lia.
Qed.

Lemma generate_never_raises (fuel : nat) (snake_body : list Pos) (rng : RNG) :
  generate_valid_position fuel snake_body rng <> IndexError.
Proof.
  revert rng. induction fuel as [|fuel IH]; intros rng; [discriminate |].
  rewrite generate_step.
  destruct (contains (candidate rng) snake_body); [apply IH | discriminate].
Qed.

(** X1.  [generate_valid_position] returns the first drawn cell that is
    not in the body: when the cells of iterations 0 .. k-1 are occupied and
    the cell of iteration [k] is free, it returns that cell after k + 1
    iterations, having used two random numbers per iteration; when every
    cell drawn is occupied the loop goes on. *)
Theorem generate_first_free (fuel : nat) (snake_body : list Pos) (rng : RNG) :
  (forall k,
      (k < fuel)%nat ->
      (forall j, (j < k)%nat -> In (nth_candidate rng j) snake_body) ->
      ~ In (nth_candidate rng k) snake_body ->
      exists rng',
        generate_valid_position fuel snake_body rng
          = Done (nth_candidate rng k, rng')
        /\ forall n, rng' n = rng (2 * S k + n)%nat)
  /\ ((forall j, (j < fuel)%nat -> In (nth_candidate rng j) snake_body) ->
      generate_valid_position fuel snake_body rng = OutOfFuel).
Proof.
  split.
  - intros k. apply generate_first_free_aux.
  - apply generate_all_taken.
Qed.

Lemma generate_first_free_witness :
  (exists rng',
     generate_valid_position 4 (body Snake_init) rng_demo = Done ((340, 300), rng')
     /\ rng' 0%nat = 15)
  /\ generate_valid_position 3 (body Snake_init) rng_demo = OutOfFuel.
Proof.
  split.
  - destruct (proj1 (generate_first_free 4 (body Snake_init) rng_demo) 3%nat)
      as [rng' [Hgen Hrng]].
    + lia.
    + intros j Hj.
      destruct j as [|[|[|j]]]; [simpl; auto | simpl; auto | simpl; auto | lia].
    + simpl. intros [E | [E | [E | []]]]; discriminate E.
    + exists rng'. split; [exact Hgen | rewrite Hrng; reflexivity].
  - apply (proj2 (generate_first_free 3 (body Snake_init) rng_demo)).
    intros j Hj.
    destruct j as [|[|[|j]]]; [simpl; auto | simpl; auto | simpl; auto | lia].
Defined.

(** ** Game.reset *)

(** X2.  [reset] does not raise; when one of the cells drawn within the
    fuel is not under the new snake it returns a running game with score
    0, the snake of three segments heading right with [grow] false, and
    the food on a cell of the playfield that is not under the snake. *)
Theorem reset_spec (fuel : nat) (rng : RNG) :
  reset fuel rng <> IndexError
  /\ ((exists k, (k < fuel)%nat
                 /\ ~ In (nth_candidate rng k) (body Snake_init)) ->
      exists g rng', reset fuel rng = Done (g, rng')
        /\ snake g = Snake_init
        /\ body (snake g) = [(400, 300); (380, 300); (360, 300)]
        /\ direction (snake g) = Direction.RIGHT
        /\ grow (snake g) = false
        /\ score g = 0
        /\ running g = true
        /\ on_grid (food g)
        /\ ~ In (food g) (body (snake g))).
Proof.
  split.
  - unfold reset, bind, ret, Food_init.
    pose proof (generate_never_raises fuel (body Snake_init) rng) as Hn.
    destruct (generate_valid_position fuel (body Snake_init) rng)
      as [[f r] | |]; [discriminate | contradiction | discriminate].
  - intros [k [Hk Hfree]].
    destruct (generate_returns fuel (body Snake_init) rng k Hk Hfree)
      as [f [rng' Hgen]].
    destruct (generate_sound _ _ _ _ _ Hgen) as [Hoff Hgrid].
    exists {| snake := Snake_init; food := f; score := 0; running := true |}, rng'.
    split.
    + unfold reset, bind, ret, Food_init. rewrite Hgen. reflexivity.
    + simpl. repeat split; auto.
Qed.

Lemma reset_spec_witness :
  exists g rng', reset 4 rng_demo = Done (g, rng')
    /\ score g = 0 /\ running g = true /\ on_grid (food g).
Proof.
  destruct (proj2 (reset_spec 4 rng_demo)) as [g [rng' [Hr [_ [_ [_ [_ [Hs [Hrun [Hg _]]]]]]]]]].
  - exists 3%nat. split; [lia |].
    simpl. intros [E | [E | [E | []]]]; discriminate E.
  - exists g, rng'. repeat split; assumption.
Defined.

(** ** Game.handle_input *)

Lemma change_direction_cases (s : Snake) (d : Pos) :
  direction (change_direction s d) = direction s
  \/ direction (change_direction s d) = d.
Proof.
  unfold change_direction. destruct (direction s) as [cx cy] eqn:Hd, d as [nx ny].
  destruct (cx + nx); [destruct (cy + ny) |..]; simpl; auto.
Qed.

Lemma handle_event_running (g : Game) (e : event) :
  running (handle_event g e) = running g && negb (is_quit e).
Proof.
  destruct e as [|[]|]; simpl;
    rewrite ?andb_true_r, ?andb_false_r; reflexivity.
Qed.

Lemma handle_input_running (events : list event) (g : Game) :
  running (handle_input events g)
    = running g && negb (existsb is_quit events).
Proof.
  unfold handle_input. revert g.
  induction events as [|e events IH]; intros g; simpl.
  - rewrite andb_true_r. reflexivity.
  - rewrite IH, handle_event_running, negb_orb, andb_assoc. reflexivity.
Qed.

Lemma handle_event_direction (g : Game) (e : event) :
  is_direction (direction (snake g)) ->
  is_direction (direction (snake (handle_event g e))).
Proof.
  intros Hd. unfold is_direction.
  destruct e as [|[]|]; simpl; try exact Hd;
    match goal with
    | |- context [change_direction ?s ?d] =>
        destruct (change_direction_cases s d) as [E | E]; rewrite E
    end; try exact Hd; auto.
Qed.

Lemma handle_input_direction (events : list event) (g : Game) :
  is_direction (direction (snake g)) ->
  is_direction (direction (snake (handle_input events g))).
Proof.
  unfold handle_input. revert g.
  induction events as [|e events IH]; intros g Hd; simpl; [exact Hd |].
  apply IH, handle_event_direction, Hd.
Qed.

(** X3.  Whatever the events of a frame, [handle_input] leaves the body,
    [grow], the food and the score as they are; [running] is true after it
    exactly when it was true before and the frame has neither QUIT nor the
    ESCAPE key (no event sets it again); and the direction stays one of
    the four of class Direction. *)
Theorem handle_input_effect (events : list event) (g : Game) :
  body (snake (handle_input events g)) = body (snake g)
  /\ grow (snake (handle_input events g)) = grow (snake g)
  /\ food (handle_input events g) = food g
  /\ score (handle_input events g) = score g
  /\ running (handle_input events g)
       = running g && negb (existsb is_quit events)
  /\ (is_direction (direction (snake g)) ->
      is_direction (direction (snake (handle_input events g)))).
Proof.
  destruct (handle_input_frame events g) as [Hb [Hg [Hf Hs]]].
  repeat split; auto.
  - apply handle_input_running.
  - apply handle_input_direction.
Qed.

Lemma handle_input_effect_witness :
  running (handle_input [KEYDOWN K_UP; QUIT; KEYDOWN K_LEFT] start_game) = false
  /\ is_direction
       (direction (snake (handle_input [KEYDOWN K_UP; QUIT; KEYDOWN K_LEFT]
                                       start_game))).
Proof.
  destruct (handle_input_effect [KEYDOWN K_UP; QUIT; KEYDOWN K_LEFT] start_game)
    as [_ [_ [_ [_ [Hr Hd]]]]].
  split; [rewrite Hr; reflexivity |].
  apply Hd. right; right; right. reflexivity.
Defined.

(** ** What every session keeps *)

Lemma reachable_inv (P : Game -> Prop) :
  (forall fuel rng g rng', reset fuel rng = Done (g, rng') -> P g) ->
  (forall g events, reachable g -> P g -> P (handle_input events g)) ->
  (forall g g' fuel rng rng',
      reachable g -> P g -> update fuel g rng = Done (g', rng') -> P g') ->
  forall g, reachable g -> P g.
Proof.
  intros Hreset Hinput Hupdate g [fuel [rng [g0 [rng' [Hr Hp]]]]].
  assert (H : reachable g /\ P g); [| apply H].
  induction Hp as [| g' events Hp IH | g' g'' fuel' rng1 rng2 Hp IH Hu].
  - split; [| apply (Hreset _ _ _ _ Hr)].
    exists fuel, rng, g0, rng'. split; [exact Hr | apply play_here].
  - destruct IH as [[f1 [r1 [g1 [r1' [Hr1 Hp1]]]]] HP]. split.
    + exists f1, r1, g1, r1'. split; [exact Hr1 | apply play_input, Hp1].
    + apply Hinput; [| exact HP].
      exists f1, r1, g1, r1'. split; assumption.
  - destruct IH as [[f1 [r1 [g1 [r1' [Hr1 Hp1]]]]] HP]. split.
    + exists f1, r1, g1, r1'. split; [exact Hr1 |].
      apply (play_update g1 g' g'' fuel' rng1 rng2 Hp1 Hu).
    + apply (Hupdate g' g'' fuel' rng1 rng2); [| exact HP | exact Hu].
      exists f1, r1, g1, r1'. split; assumption.
Qed.

(** The snake of a game that [update] has returned. *)
Lemma update_snake (fuel : nat) (g g' : Game) (rng rng' : RNG) :
  update fuel g rng = Done (g', rng') ->
  exists h rest (eaten : bool),
    body (snake g) = h :: rest
    /\ body (snake g') = body (moved (snake g) h)
    /\ direction (snake g') = direction (snake g)
    /\ grow (snake g') = eaten
    /\ score g' = score g + (if eaten then 1 else 0).
Proof.
  intros Hu.
  assert (Hb : exists h rest, body (snake g) = h :: rest).
  { destruct (body (snake g)) as [|h rest] eqn:Hb; [| eauto].
    rewrite (update_empty fuel g rng Hb) in Hu. discriminate Hu. }
  destruct Hb as [h [rest Hb]].
  assert (Hb1 : exists nh r, body (moved (snake g) h) = nh :: r)
    by (unfold moved; simpl; eauto).
  destruct Hb1 as [nh [r Hb1]].
  rewrite (update_eq fuel g rng _ nh r (move_cons _ h rest Hb) Hb1) in Hu.
  exists h, rest, (pos_eqb nh (food g)). split; [exact Hb |].
  destruct (pos_eqb nh (food g)).
  - destruct (generate_valid_position fuel _ rng) as [[f rg] | |];
      inversion Hu; subst; clear Hu.
    destruct (stop_if_frame (hit nh r) (ate (moved (snake g) h) f g))
      as [Hs [_ Hsc]].
    rewrite Hs, Hsc. repeat split.
  - inversion Hu; subst; clear Hu.
    destruct (stop_if_frame (hit nh r) (went_on (moved (snake g) h) g))
      as [Hs [_ Hsc]].
    rewrite Hs, Hsc. simpl. repeat split. lia.
Qed.

Lemma reachable_direction (g : Game) :
  reachable g -> is_direction (direction (snake g)).
Proof.
  revert g. apply (reachable_inv (fun g => is_direction (direction (snake g)))).
  - intros fuel rng g0 rng' Hr.
    destruct (reset_done _ _ _ _ Hr) as [f [_ ->]].
    right; right; right. reflexivity.
  - intros g0 events _ H. apply handle_input_direction, H.
  - intros g0 g' fuel rng rng' _ H Hu.
    destruct (update_snake _ _ _ _ _ Hu) as [h [rest [e [_ [_ [Hd _]]]]]].
    rewrite Hd. exact H.
Qed.

Lemma linked_removelast (l : list Pos) : linked l -> linked (removelast l).
Proof.
  induction l as [|a [|b [|c l]] IH]; simpl; auto.
  intros [Hab Hl]. split; [exact Hab |]. apply IH. exact Hl.
Qed.

Lemma linked_cons (a : Pos) (l : list Pos) :
  linked l ->
  (forall b t, l = b :: t -> is_direction (fst a - fst b, snd a - snd b)) ->
  linked (a :: l).
Proof.
  intros Hl Ha. destruct l as [|b t]; simpl; [exact I |].
  split; [apply (Ha b t eq_refl) | exact Hl].
Qed.

Lemma removelast_head (h b : Pos) (rest t : list Pos) :
  removelast (h :: rest) = b :: t -> b = h.
Proof.
  destruct rest; simpl; intros E; inversion E; reflexivity.
Qed.

Lemma reachable_linked (g : Game) : reachable g -> linked (body (snake g)).
Proof.
  revert g. apply (reachable_inv (fun g => linked (body (snake g)))).
  - intros fuel rng g0 rng' Hr.
    destruct (reset_done _ _ _ _ Hr) as [f [_ ->]].
    simpl. repeat split; right; right; right; reflexivity.
  - intros g0 events _ H.
    destruct (handle_input_frame events g0) as [Hb _]. rewrite Hb. exact H.
  - intros g0 g' fuel rng rng' Hr H Hu.
    destruct (update_snake _ _ _ _ _ Hu) as [h [rest [e [Hb [Hb' _]]]]].
    rewrite Hb'. unfold moved. cbn [body].
    pose proof (reachable_direction g0 Hr) as Hd.
    assert (Hstep : is_direction
              (fst h + fst (direction (snake g0)) - fst h,
               snd h + snd (direction (snake g0)) - snd h)).
    { replace (fst h + fst (direction (snake g0)) - fst h)
        with (fst (direction (snake g0))) by lia.
      replace (snd h + snd (direction (snake g0)) - snd h)
        with (snd (direction (snake g0))) by lia.
      destruct (direction (snake g0)); exact Hd. }
    apply linked_cons.
    + destruct (grow (snake g0)); [exact H | apply linked_removelast, H].
    + intros b t E. simpl fst; simpl snd.
      assert (b = h) as ->; [| exact Hstep].
      destruct (grow (snake g0)).
      * rewrite Hb in E. inversion E; reflexivity.
      * rewrite Hb in E. apply (removelast_head _ _ _ _ E).
Qed.

(** X4.  In every game of a session the direction of the snake is one of
    UP, DOWN, LEFT, RIGHT, and each segment of the body is exactly one
    block away from the next one, horizontally or vertically. *)
Theorem snake_shape (g : Game) (Hreach : reachable g) :
  is_direction (direction (snake g)) /\ linked (body (snake g)).
Proof.
  split; [apply reachable_direction | apply reachable_linked]; exact Hreach.
Qed.

Lemma snake_shape_witness :
  reachable start_game
  /\ is_direction (direction (snake start_game))
  /\ linked (body (snake start_game)).
Proof.
  split; [exact start_game_reachable |].
  apply (snake_shape start_game start_game_reachable).
Defined.

Lemma Forall_removelast {A} (P : A -> Prop) (l : list A) :
  Forall P l -> Forall P (removelast l).
Proof.
  intros H. apply Forall_forall. intros x Hx.
  apply (proj1 (Forall_forall P l) H), In_removelast, Hx.
Qed.

Lemma aligned_step (h d : Pos) :
  aligned h -> is_direction d -> aligned (fst h + fst d, snd h + snd d).
Proof.
  unfold aligned, is_direction, Direction.UP, Direction.DOWN,
    Direction.LEFT, Direction.RIGHT, BLOCK_SIZE.
  intros [Hx Hy] [-> | [-> | [-> | ->]]]; simpl fst; simpl snd;
    split; Z.div_mod_to_equations; lia.
Qed.

Lemma on_grid_aligned (p : Pos) : on_grid p -> aligned p /\ on_screen p.
Proof.
  intros [i [j [Hi [Hj ->]]]].
  change ((SCREEN_WIDTH - BLOCK_SIZE) / BLOCK_SIZE) with 39 in Hi.
  change ((SCREEN_HEIGHT - BLOCK_SIZE) / BLOCK_SIZE) with 29 in Hj.
  unfold aligned, on_screen, BLOCK_SIZE, SCREEN_WIDTH, SCREEN_HEIGHT.
  simpl fst; simpl snd. rewrite !Z.mod_mul by lia. lia.
Qed.

Lemma aligned_on_grid (p : Pos) : aligned p -> on_screen p -> on_grid p.
Proof.
  destruct p as [x y].
  unfold aligned, on_screen, on_grid, BLOCK_SIZE, SCREEN_WIDTH, SCREEN_HEIGHT.
  simpl fst; simpl snd. intros [Hx Hy] [Hx' Hy'].
  exists (x / 20), (y / 20).
  change ((800 - 20) / 20) with 39. change ((600 - 20) / 20) with 29.
  split; [| split].
  - Z.div_mod_to_equations; lia.
  - Z.div_mod_to_equations; lia.
  - f_equal; Z.div_mod_to_equations; lia.
Qed.

(** The food of a game that [update] has returned. *)
Lemma update_food_cases (fuel : nat) (g g' : Game) (rng rng' : RNG) :
  update fuel g rng = Done (g', rng') ->
  food g' = food g \/ on_grid (food g').
Proof.
  intros Hu.
  assert (Hb : exists h rest, body (snake g) = h :: rest).
  { destruct (body (snake g)) as [|h rest] eqn:Hb; [| eauto].
    rewrite (update_empty fuel g rng Hb) in Hu. discriminate Hu. }
  destruct Hb as [h [rest Hb]].
  assert (Hb1 : exists nh r, body (moved (snake g) h) = nh :: r)
    by (unfold moved; simpl; eauto).
  destruct Hb1 as [nh [r Hb1]].
  rewrite (update_eq fuel g rng _ nh r (move_cons _ h rest Hb) Hb1) in Hu.
  destruct (pos_eqb nh (food g)).
  - destruct (generate_valid_position fuel _ rng) as [[f rg] | |] eqn:Hgen;
      inversion Hu; subst; clear Hu.
    right. apply generate_sound in Hgen.
    destruct (stop_if_frame (hit nh r) (ate (moved (snake g) h) f g))
      as [_ [Hf _]].
    rewrite Hf. apply Hgen.
  - inversion Hu; subst; clear Hu. left.
    destruct (stop_if_frame (hit nh r) (went_on (moved (snake g) h) g))
      as [_ [Hf _]].
    rewrite Hf. reflexivity.
Qed.

Lemma reachable_food_on_grid (g : Game) : reachable g -> on_grid (food g).
Proof.
  revert g. apply (reachable_inv (fun g => on_grid (food g))).
  - intros fuel rng g0 rng' Hr.
    destruct (reset_done _ _ _ _ Hr) as [f [Hgen ->]].
    apply (generate_sound _ _ _ _ _ Hgen).
  - intros g0 events _ H.
    destruct (handle_input_frame events g0) as [_ [_ [Hf _]]].
    rewrite Hf. exact H.
  - intros g0 g' fuel rng rng' _ H Hu.
    destruct (update_food_cases _ _ _ _ _ Hu) as [E | Hg];
      [rewrite E; exact H | exact Hg].
Qed.

Lemma reachable_aligned (g : Game) :
  reachable g -> Forall aligned (body (snake g)).
Proof.
  revert g. apply (reachable_inv (fun g => Forall aligned (body (snake g)))).
  - intros fuel rng g0 rng' Hr.
    destruct (reset_done _ _ _ _ Hr) as [f [_ ->]].
    simpl. repeat constructor.
  - intros g0 events _ H.
    destruct (handle_input_frame events g0) as [Hb _]. rewrite Hb. exact H.
  - intros g0 g' fuel rng rng' Hr H Hu.
    destruct (update_snake _ _ _ _ _ Hu) as [h [rest [e [Hb [Hb' _]]]]].
    rewrite Hb'. unfold moved. cbn [body]. constructor.
    + apply aligned_step; [| apply reachable_direction, Hr].
      rewrite Hb in H. inversion H; assumption.
    + destruct (grow (snake g0)); [exact H | apply Forall_removelast, H].
Qed.

(** X5.  In every game of a session all segments of the snake have
    coordinates that are multiples of BLOCK_SIZE, and the food lies on a
    cell of the playfield: aligned and inside the window. *)
Theorem session_on_cells (g : Game) (Hreach : reachable g) :
  Forall aligned (body (snake g))
  /\ aligned (food g) /\ on_screen (food g).
Proof.
  split; [apply reachable_aligned, Hreach |].
  apply on_grid_aligned, reachable_food_on_grid, Hreach.
Qed.

Lemma session_on_cells_witness :
  reachable start_game
  /\ Forall aligned (body (snake start_game))
  /\ aligned (food start_game) /\ on_screen (food start_game).
Proof.
  split; [exact start_game_reachable |].
  apply (session_on_cells start_game start_game_reachable).
Defined.

Lemma moved_length (s : Snake) (h : Pos) (rest : list Pos) :
  body s = h :: rest ->
  length (body (moved s h))
    = if grow s then S (length (body s)) else length (body s).
Proof.
  intros Hb. unfold moved. cbn [body]. destruct (grow s); simpl.
  - reflexivity.
  - rewrite removelast_length, Hb. reflexivity.
Qed.

Lemma reachable_length (g : Game) :
  reachable g ->
  (3 <= length (body (snake g)))%nat
  /\ score g = Z.of_nat (length (body (snake g))) - 3
                 + (if grow (snake g) then 1 else 0).
Proof.
  revert g.
  apply (reachable_inv (fun g =>
    (3 <= length (body (snake g)))%nat
    /\ score g = Z.of_nat (length (body (snake g))) - 3
                   + (if grow (snake g) then 1 else 0))).
  - intros fuel rng g0 rng' Hr.
    destruct (reset_done _ _ _ _ Hr) as [f [_ ->]]. simpl. split; [lia | reflexivity].
  - intros g0 events _ H.
    destruct (handle_input_frame events g0) as [Hb [Hg [_ Hs]]].
    rewrite Hb, Hg, Hs. exact H.
  - intros g0 g' fuel rng rng' _ [Hlen Hsc] Hu.
    destruct (update_snake _ _ _ _ _ Hu)
      as [h [rest [e [Hb [Hb' [_ [Hg Hs]]]]]]].
    rewrite Hb', Hg, Hs, (moved_length _ h rest Hb), Hsc.
    destruct (grow (snake g0)), e; split; lia.
Qed.

(** X6.  In every game of a session the snake has at least three segments
    and the score is the number of segments gained since the start,
    counting the one still to come when [grow] is set:
    score = len(body) - 3 + (1 if grow else 0).  So the score is never
    negative. *)
Theorem score_is_growth (g : Game) (Hreach : reachable g) :
  (3 <= length (body (snake g)))%nat
  /\ score g = Z.of_nat (length (body (snake g))) - 3
                 + (if grow (snake g) then 1 else 0)
  /\ 0 <= score g.
Proof.
  destruct (reachable_length g Hreach) as [Hlen Hsc].
  split; [exact Hlen |]. split; [exact Hsc |].
  rewrite Hsc. destruct (grow (snake g)); lia.
Qed.

Lemma score_is_growth_witness :
  reachable start_game
  /\ score start_game = Z.of_nat (length (body (snake start_game))) - 3 + 0.
Proof.
  split; [exact start_game_reachable |].
  destruct (score_is_growth start_game start_game_reachable) as [_ [H _]].
  exact H.
Defined.

Lemma fed_game_reachable : reachable fed_game.
Proof.
  exists 1%nat, rng_ahead,
    {| snake := Snake_init; food := (420, 300); score := 0; running := true |},
    (fun n => rng_ahead (S (S n))).
  split; [reflexivity |].
  apply (play_update _
           {| snake := Snake_init; food := (420, 300); score := 0; running := true |}
           fed_game 1%nat (fun n => rng_ahead (S (S n)))
           (fun n => rng_ahead (S (S (S (S n)))))); [apply play_here | reflexivity].
Qed.

Lemma reachable_food_off (g : Game) :
  reachable g -> ~ In (food g) (body (snake g)).
Proof.
  intros [fuel [rng [g0 [rng' [Hr Hp]]]]].
  apply (play_food_off g0 g Hp).
  destruct (reset_done _ _ _ _ Hr) as [f [Hgen ->]]. simpl food; simpl snake.
  apply (generate_sound _ _ _ _ _ Hgen).
Qed.

Lemma on_screen_not_out (p : Pos) : ~ out_of_screen p -> on_screen p.
Proof. unfold out_of_screen, on_screen. lia. Qed.

Lemma reachable_running (g : Game) :
  reachable g ->
  running g = true ->
  NoDup (body (snake g)) /\ Forall on_screen (body (snake g)).
Proof.
  revert g.
  apply (reachable_inv (fun g =>
    running g = true ->
    NoDup (body (snake g)) /\ Forall on_screen (body (snake g)))).
  - intros fuel rng g0 rng' Hr _.
    destruct (reset_done _ _ _ _ Hr) as [f [_ ->]].
    split; [apply NoDup_Snake_init |].
    change (Forall on_screen [(400, 300); (380, 300); (360, 300)]).
    unfold on_screen, SCREEN_WIDTH, SCREEN_HEIGHT.
    repeat (apply Forall_cons; [simpl; lia |]). apply Forall_nil.
  - intros g0 events _ H Hrun.
    destruct (handle_input_frame events g0) as [Hb _]. rewrite Hb.
    apply H. rewrite handle_input_running in Hrun.
    apply andb_true_iff in Hrun. apply Hrun.
  - intros g0 g' fuel rng rng' _ H Hu Hrun.
    destruct (update_done fuel g0 g' rng rng' Hu)
      as [h [rest [nh [r [Hb [Hm [Hb' [Hr' _]]]]]]]].
    rewrite Hrun in Hr'. destruct (hit nh r) eqn:Hh; [discriminate Hr' |].
    destruct (H (eq_sym Hr')) as [Hnd Hscr].
    apply hit_false in Hh. destruct Hh as [Hnot Hin].
    rewrite Hb'. split.
    + constructor; [exact Hnot | apply (moved_tail_NoDup _ h nh r Hm Hnd)].
    + constructor; [apply on_screen_not_out, Hin |].
      apply Forall_forall. intros q Hq.
      apply (proj1 (Forall_forall _ _) Hscr), (moved_tail_incl _ h nh r q Hm Hq).
Qed.

Lemma full_board_length : length full_board = 1200%nat.
Proof. reflexivity. Qed.

(** X7.  While [running] is true in a session, the segments of the snake
    are pairwise distinct and all inside the window.  With the food on a
    free cell of the 40 x 30 playfield, the snake then has at most 1199
    segments and the score is at most 1197. *)
Theorem running_snake_fits (g : Game)
    (Hreach : reachable g) (Hrun : running g = true) :
  NoDup (body (snake g))
  /\ Forall on_screen (body (snake g))
  /\ (length (body (snake g)) <= 1199)%nat
  /\ score g <= 1197.
Proof.
  destruct (reachable_running g Hreach Hrun) as [Hnd Hscr].
  split; [exact Hnd |]. split; [exact Hscr |].
  assert (Hlen : (length (food g :: body (snake g)) <= length full_board)%nat).
  { apply NoDup_incl_length.
    - constructor; [apply reachable_food_off, Hreach | exact Hnd].
    - intros q [<- | Hq]; apply full_board_covers.
      + apply reachable_food_on_grid, Hreach.
      + apply aligned_on_grid.
        * apply (proj1 (Forall_forall _ _) (reachable_aligned g Hreach)), Hq.
        * apply (proj1 (Forall_forall _ _) Hscr), Hq. }
  rewrite full_board_length in Hlen. simpl length in Hlen.
  split; [lia |].
  destruct (reachable_length g Hreach) as [_ Hsc].
  rewrite Hsc. destruct (grow (snake g)); lia.
Qed.

Lemma running_snake_fits_witness :
  reachable fed_game /\ running fed_game = true
  /\ NoDup (body (snake fed_game)) /\ score fed_game <= 1197.
Proof.
  split; [exact fed_game_reachable |]. split; [reflexivity |].
  destruct (running_snake_fits fed_game fed_game_reachable eq_refl)
    as [Hn [_ [_ Hs]]].
  split; [exact Hn | exact Hs].
Defined.

(** ** Two turns in one frame *)

Lemma change_direction_reject (s : Snake) (r : Pos) :
  is_opposite (direction s) r -> change_direction s r = s.
Proof.
  unfold is_opposite, change_direction.
  destruct (direction s) as [cx cy], r as [nx ny]; simpl.
  intros [-> ->]. reflexivity.
Qed.

Lemma change_direction_accept (s : Snake) (r : Pos) :
  ~ is_opposite (direction s) r ->
  change_direction s r = {| body := body s; direction := r; grow := grow s |}.
Proof.
  unfold is_opposite, change_direction.
  destruct (direction s) as [cx cy], r as [nx ny]; simpl. intros Hn.
  destruct (cx + nx) eqn:Ex; [destruct (cy + ny) eqn:Ey |..]; try reflexivity.
  exfalso; apply Hn; split; reflexivity.
Qed.

Lemma is_opposite_reverse (d p : Pos) : is_opposite d p <-> p = reverse d.
Proof.
  unfold is_opposite, reverse. destruct d as [dx dy], p as [px py]; simpl.
  split.
  - intros [Hx Hy]. f_equal; lia.
  - intros E. inversion E. lia.
Qed.

Lemma handle_event_key (g : Game) (k : key) (d : Pos) :
  key_direction k = Some d ->
  handle_event g (KEYDOWN k) = set_snake g (change_direction (snake g) d).
Proof.
  destruct k; simpl; intros E; inversion E; reflexivity.
Qed.

Lemma removelast_cons2 {A} (a b : A) (l : list A) :
  l <> [] -> removelast (a :: b :: l) = a :: b :: removelast l.
Proof. destruct l; [congruence | reflexivity]. Qed.

(** X8.  The test in [change_direction] compares a request with the
    current direction only.  For a snake moving away from its second
    segment, the key for the opposite direction alone is ignored; but a
    key for another direction followed, in the same frame, by the key for
    the opposite direction turns the snake round.  When the second
    segment stays in the body (three segments or more, or [grow] set) the
    next [update] moves the head onto it, finds the collision and clears
    [running]. *)
Theorem quick_reversal (g : Game) (h n p : Pos) (rest : list Pos)
    (k1 k2 : key) (fuel : nat) (rng : RNG)
    (Hbody : body (snake g) = h :: n :: rest)
    (Hkept : rest <> [] \/ grow (snake g) = true)
    (Hdir : direction (snake g) = (fst h - fst n, snd h - snd n))
    (Hk1 : key_direction k1 = Some p)
    (Hp1 : p <> direction (snake g))
    (Hp2 : p <> reverse (direction (snake g)))
    (Hk2 : key_direction k2 = Some (reverse (direction (snake g))))
    (Hfood : ~ In (food g) (body (snake g))) :
  direction (snake (handle_input [KEYDOWN k2] g)) = direction (snake g)
  /\ direction (snake (handle_input [KEYDOWN k1; KEYDOWN k2] g))
       = reverse (direction (snake g))
  /\ exists g',
       update fuel (handle_input [KEYDOWN k1; KEYDOWN k2] g) rng = Done (g', rng)
       /\ check_collision (snake g') = Done true
       /\ running g' = false.
Proof.
  set (d := direction (snake g)) in *.
  unfold handle_input. cbn [fold_left].
  rewrite (handle_event_key g k2 _ Hk2).
  rewrite (handle_event_key g k1 p Hk1).
  rewrite (handle_event_key _ k2 _ Hk2).
  assert (H1 : change_direction (snake g) (reverse d) = snake g).
  { apply change_direction_reject, is_opposite_reverse. reflexivity. }
  assert (H2 : change_direction (snake g) p
               = {| body := body (snake g); direction := p; grow := grow (snake g) |}).
  { apply change_direction_accept. rewrite is_opposite_reverse. exact Hp2. }
  assert (H3 : change_direction (change_direction (snake g) p) (reverse d)
               = {| body := body (snake g); direction := reverse d;
                    grow := grow (snake g) |}).
  { rewrite H2, change_direction_accept; [reflexivity |]. simpl direction.
    rewrite is_opposite_reverse. intros E. apply Hp1.
    unfold reverse in E. destruct d as [dx dy], p as [px py]; simpl in E.
    inversion E. f_equal; lia. }
  split; [rewrite H1; reflexivity |].
  cbn [set_snake snake]. rewrite H3. split; [reflexivity |].
  set (g1 := set_snake (set_snake g (change_direction (snake g) p))
               {| body := body (snake g); direction := reverse d;
                  grow := grow (snake g) |}).
  assert (Hb1 : body (snake g1) = h :: n :: rest) by exact Hbody.
  assert (Hnew : (fst h + fst (direction (snake g1)),
                  snd h + snd (direction (snake g1))) = n).
  { change (direction (snake g1)) with (reverse d). fold d in Hdir.
    rewrite Hdir. unfold reverse. destruct n as [nx ny]; simpl. f_equal; lia. }
  assert (Hm : exists r, body (moved (snake g1) h) = n :: r /\ In n r).
  { unfold moved. cbn [body]. rewrite Hnew, Hb1.
    change (grow (snake g1)) with (grow (snake g)).
    destruct Hkept as [Hrest | Hg].
    - destruct (grow (snake g)).
      + eexists; split; [reflexivity | right; left; reflexivity].
      + rewrite (removelast_cons2 h n rest Hrest).
        eexists; split; [reflexivity | right; left; reflexivity].
    - rewrite Hg. eexists; split; [reflexivity | right; left; reflexivity]. }
  destruct Hm as [r [Hm Hin]].
  rewrite (update_eq fuel g1 rng _ n r (move_cons _ h _ Hb1) Hm).
  assert (Hne : pos_eqb n (food g1) = false).
  { apply pos_eqb_neq. intros E. apply Hfood. rewrite Hbody.
    change (food g1) with (food g) in E. rewrite <- E.
    right; left; reflexivity. }
  assert (Hhit : hit n r = true) by (apply hit_true; left; exact Hin).
  rewrite Hne, Hhit. eexists. split; [reflexivity |].
  split; [| reflexivity].
  change (check_collision (moved (snake g1) h) = Done true).
  rewrite (check_collision_cons _ n r Hm), Hhit. reflexivity.
Qed.

Lemma quick_reversal_witness :
  direction (snake (handle_input [KEYDOWN K_LEFT] start_game)) = Direction.RIGHT
  /\ direction (snake (handle_input [KEYDOWN K_UP; KEYDOWN K_LEFT] start_game))
       = Direction.LEFT
  /\ exists g',
       update 1 (handle_input [KEYDOWN K_UP; KEYDOWN K_LEFT] start_game) rng_demo
         = Done (g', rng_demo)
       /\ check_collision (snake g') = Done true
       /\ running g' = false.
Proof.
  apply (quick_reversal start_game (400, 300) (380, 300) Direction.UP
           [(360, 300)] K_UP K_LEFT 1%nat rng_demo).
  - reflexivity.
  - left. discriminate.
  - reflexivity.
  - reflexivity.
  - discriminate.
  - discriminate.
  - reflexivity.
  - simpl. intros [E | [E | [E | []]]]; discriminate E.
Defined.

(** ** Game.run *)

Lemma update_never_raises (fuel : nat) (g : Game) (rng : RNG) :
  body (snake g) <> [] -> update fuel g rng <> IndexError.
Proof.
  intros Hne. destruct (body (snake g)) as [|h rest] eqn:Hb; [congruence |].
  assert (Hb1 : exists nh r, body (moved (snake g) h) = nh :: r)
    by (unfold moved; simpl; eauto).
  destruct Hb1 as [nh [r Hb1]].
  rewrite (update_eq fuel g rng _ nh r (move_cons _ h rest Hb) Hb1).
  destruct (pos_eqb nh (food g)); [| discriminate].
  pose proof (generate_never_raises fuel (body (moved (snake g) h)) rng) as Hn.
  destruct (generate_valid_position fuel (body (moved (snake g) h)) rng)
    as [[f rg] | |]; [discriminate | contradiction | discriminate].
Qed.

Lemma run_loop_never_raises (fuel : nat) (inputs : nat -> list event)
    (frame : nat) (g : Game) (rng : RNG) :
  body (snake g) <> [] -> run_loop fuel inputs frame g rng <> IndexError.
Proof.
  revert frame g rng. induction fuel as [|fuel IH]; intros frame g rng Hne.
  - simpl. destruct (running g); discriminate.
  - simpl. destruct (running g); [| discriminate].
    unfold bind.
    assert (Hne' : body (snake (handle_input (inputs frame) g)) <> []).
    { destruct (handle_input_frame (inputs frame) g) as [Hb _].
      rewrite Hb. exact Hne. }
    pose proof (update_never_raises (S fuel) _ rng Hne') as Hu.
    destruct (update (S fuel) (handle_input (inputs frame) g) rng)
      as [[g1 rng1] | |] eqn:Hupd; [| contradiction | discriminate].
    apply IH.
    destruct (update_done _ _ _ _ _ Hupd) as [h [rest [nh [r [_ [_ [Hb' _]]]]]]].
    rewrite Hb'. discriminate.
Qed.

(** X9.  [run] never raises IndexError, whatever the keys and the random
    numbers: the body of the snake is never empty when [move] and
    [check_collision] take its first element.  The same holds for one
    [update] on any game of a session. *)
Theorem run_never_raises :
  (forall fuel inputs rng, run fuel inputs rng <> IndexError)
  /\ (forall g fuel rng, reachable g -> update fuel g rng <> IndexError).
Proof.
  split.
  - intros fuel inputs rng. unfold run, bind.
    destruct (reset fuel rng) as [[g rng'] | |] eqn:Hr.
    + apply run_loop_never_raises.
      destruct (reset_done _ _ _ _ Hr) as [f [_ ->]]. discriminate.
    + unfold reset, bind, Food_init in Hr.
      pose proof (generate_never_raises fuel (body Snake_init) rng) as Hn.
      destruct (generate_valid_position fuel (body Snake_init) rng)
        as [[f r] | |]; [discriminate Hr | contradiction | discriminate Hr].
    + discriminate.
  - intros g fuel rng Hreach.
    apply update_never_raises, reachable_body, Hreach.
Qed.

Lemma run_never_raises_witness :
  run 21 (fun _ => []) rng_demo <> IndexError
  /\ update 4 fed_game rng_demo <> IndexError.
Proof.
  split.
  - apply (proj1 run_never_raises).
  - apply (proj2 run_never_raises). exact fed_game_reachable.
Defined.

Lemma reachable_input (g : Game) (events : list event) :
  reachable g -> reachable (handle_input events g).
Proof.
  intros [fuel [rng [g0 [rng' [Hr Hp]]]]].
  exists fuel, rng, g0, rng'. split; [exact Hr | apply play_input, Hp].
Qed.

Lemma reachable_update (g g' : Game) (fuel : nat) (rng rng' : RNG) :
  reachable g -> update fuel g rng = Done (g', rng') -> reachable g'.
Proof.
  intros [fuel0 [rng0 [g0 [rng0' [Hr Hp]]]]] Hu.
  exists fuel0, rng0, g0, rng0'. split; [exact Hr |].
  apply (play_update g0 g g' fuel rng rng' Hp Hu).
Qed.

(** The counting loop returns the game that the loop returns. *)
Lemma run_loop_frames_game (fuel : nat) (inputs : nat -> list event)
    (frame : nat) (g : Game) (rng : RNG) :
  run_loop fuel inputs frame g rng
    = match run_loop_frames fuel inputs frame g rng with
      | Done ((g', _), rng') => Done (g', rng')
      | IndexError => IndexError
      | OutOfFuel => OutOfFuel
      end.
Proof.
  revert frame g rng. induction fuel as [|fuel IH]; intros frame g rng.
  - simpl. destruct (running g); reflexivity.
  - simpl. destruct (running g); [| reflexivity].
    unfold bind.
    destruct (update (S fuel) (handle_input (inputs frame) g) rng)
      as [[g1 rng1] | |]; [apply IH | reflexivity | reflexivity].
Qed.

Lemma run_loop_frames_done (fuel : nat) (inputs : nat -> list event)
    (frame : nat) (g g' : Game) (rng rng' : RNG) :
  run_loop fuel inputs frame g rng = Done (g', rng') ->
  exists k, run_loop_frames fuel inputs frame g rng = Done ((g', k), rng').
Proof.
  rewrite run_loop_frames_game.
  destruct (run_loop_frames fuel inputs frame g rng) as [[[g1 k] rng1] | |];
    intros H; inversion H; subst. exists k. reflexivity.
Qed.

(** Only the frames that were played matter. *)
Lemma run_loop_frames_prefix (fuel : nat) (inputs inputs2 : nat -> list event)
    (frame k : nat) (g g' : Game) (rng rng' : RNG) :
  run_loop_frames fuel inputs frame g rng = Done ((g', k), rng') ->
  (forall m, (frame <= m < k)%nat -> inputs2 m = inputs m) ->
  (frame <= k)%nat
  /\ run_loop_frames fuel inputs2 frame g rng = Done ((g', k), rng').
Proof.
  revert frame g rng.
  induction fuel as [|fuel IH]; intros frame g rng H Hsame.
  - simpl in *. destruct (running g); [discriminate H |].
    inversion H; subst. split; [lia | reflexivity].
  - simpl in *. destruct (running g).
    + unfold bind in *.
      destruct (update (S fuel) (handle_input (inputs frame) g) rng)
        as [[g1 rng1] | |] eqn:Hupd; try discriminate H.
      assert (Hle : (S frame <= k)%nat).
      { apply (IH (S frame) g1 rng1 H). intros m Hm. apply Hsame. lia. }
      rewrite (Hsame frame) by lia. rewrite Hupd.
      split; [lia |].
      apply (IH (S frame) g1 rng1 H). intros m Hm. apply Hsame. lia.
    + inversion H; subst. split; [lia | reflexivity].
Qed.

Lemma run_loop_frames_ends (fuel : nat) (inputs : nat -> list event)
    (frame k : nat) (g g' : Game) (rng rng' : RNG) :
  reachable g ->
  running g = true ->
  run_loop_frames fuel inputs frame g rng = Done ((g', k), rng') ->
  exists n,
    k = S n /\ (frame <= n)%nat
    /\ reachable g'
    /\ (existsb is_quit (inputs n) = true
        \/ check_collision (snake g') = Done true)
    /\ (forall m, (frame <= m < n)%nat -> existsb is_quit (inputs m) = false).
Proof.
  revert frame g rng.
  induction fuel as [|fuel IH]; intros frame g rng Hreach Hrun H.
  - simpl in H. rewrite Hrun in H. discriminate H.
  - simpl in H. rewrite Hrun in H. unfold bind in H.
    destruct (update (S fuel) (handle_input (inputs frame) g) rng)
      as [[g1 rng1] | |] eqn:Hupd; try discriminate H.
    assert (Hreach1 : reachable g1).
    { apply (reachable_update _ g1 _ _ _
               (reachable_input g (inputs frame) Hreach) Hupd). }
    destruct (update_done _ _ _ _ _ Hupd)
      as [h [rest [nh [r [_ [_ [Hb' [Hr' _]]]]]]]].
    rewrite handle_input_running, Hrun in Hr'. simpl andb in Hr'.
    destruct (running g1) eqn:Hrun1.
    + destruct (IH _ _ _ Hreach1 Hrun1 H) as [n [Hk [Hn [Hr'' [Hwhy Hbefore]]]]].
      exists n. split; [exact Hk |]. split; [lia |].
      split; [exact Hr'' |]. split; [exact Hwhy |].
      intros m Hm. destruct (Nat.eq_dec m frame) as [-> | Hne].
      * destruct (existsb is_quit (inputs frame)); [| reflexivity].
        destruct (hit nh r); discriminate Hr'.
      * apply Hbefore. lia.
    + destruct fuel as [|fuel']; simpl in H; rewrite Hrun1 in H;
        inversion H; subst; exists frame;
        (split; [reflexivity |]); (split; [lia |]);
        (split; [exact Hreach1 |]);
        (split; [| intros m Hm; lia]);
        rewrite (check_collision_cons _ nh r Hb');
        (destruct (hit nh r); [right; reflexivity |]);
        left;
        (destruct (existsb is_quit (inputs frame));
         [reflexivity | discriminate Hr']).
Qed.

(** X10.  When [run] returns, the game it leaves is one of the session
    and [running] is false.  The loop has played the frames 0 .. n for
    some [n], and only those matter: any other inputs that agree on them
    give the same result.  It ended in frame [n] for one of two reasons
    only: the events of frame [n] hold a QUIT or the ESCAPE key, or the
    update of frame [n] found a collision ([check_collision] is true on
    the final snake).  No frame before [n] has a QUIT or the ESCAPE key. *)
Theorem run_ends (fuel : nat) (inputs : nat -> list event)
    (rng rng' : RNG) (g' : Game)
    (Hrun : run fuel inputs rng = Done (g', rng')) :
  reachable g'
  /\ running g' = false
  /\ exists n,
       run_frames fuel inputs rng = Done ((g', S n), rng')
       /\ (existsb is_quit (inputs n) = true
           \/ check_collision (snake g') = Done true)
       /\ (forall m, (m < n)%nat -> existsb is_quit (inputs m) = false)
       /\ (forall inputs2,
             (forall m, (m <= n)%nat -> inputs2 m = inputs m) ->
             run fuel inputs2 rng = Done (g', rng')).
Proof.
  unfold run, run_frames, bind in *.
  destruct (reset fuel rng) as [[g0 rng0] | |] eqn:Hr; try discriminate Hrun.
  assert (Hreach : reachable g0).
  { exists fuel, rng, g0, rng0. split; [exact Hr | apply play_here]. }
  assert (Hrun0 : running g0 = true).
  { destruct (reset_done _ _ _ _ Hr) as [f [_ ->]]. reflexivity. }
  destruct (run_loop_frames_done _ _ _ _ _ _ _ Hrun) as [k Hk].
  destruct (run_loop_frames_ends _ _ _ _ _ _ _ _ Hreach Hrun0 Hk)
    as [n [-> [_ [Hr' [Hwhy Hbefore]]]]].
  split; [exact Hr' |].
  split; [apply (run_loop_ends_stopped _ _ _ _ _ _ _ Hrun) |].
  exists n. split; [exact Hk |]. split; [exact Hwhy |].
  split; [intros m Hm; apply Hbefore; lia |].
  intros inputs2 Hsame.
  rewrite run_loop_frames_game.
  destruct (run_loop_frames_prefix fuel inputs inputs2 0 (S n) g0 g' rng0 rng' Hk)
    as [_ Hk2].
  - intros m Hm. apply Hsame. lia.
  - rewrite Hk2. reflexivity.
Qed.

(** Twenty frames without a key: the snake leaves the window on the right
    in frame 19, and a QUIT that would come in frame 1000 plays no part. *)
Lemma run_ends_witness :
  reachable game_over
  /\ running game_over = false
  /\ check_collision (snake game_over) = Done true
  /\ exists rng',
       run_frames 21 (fun m => if Nat.eqb m 1000 then [QUIT] else []) rng_demo
         = Done ((game_over, 20%nat), rng').
Proof.
  destruct (run_ends 21 (fun m => if Nat.eqb m 1000 then [QUIT] else [])
              rng_demo
              (fun n => rng_demo (S (S (S (S (S (S (S (S n)))))))))
              game_over)
    as [Hreach [Hstop [n [Hf [Hwhy _]]]]].
  - vm_compute. reflexivity.
  - split; [exact Hreach |]. split; [exact Hstop |].
    split; [reflexivity |].
    eexists. vm_compute. reflexivity.
Defined.

(** X11.  The loop tests [running] only at the top.  In a frame that has
    a QUIT event or the ESCAPE key, [handle_input] clears [running] and
    the loop still calls [update] once: the loop then returns exactly what
    that update returns, with the snake moved by one more step. *)
Theorem quit_frame_updates (fuel : nat) (inputs : nat -> list event)
    (frame : nat) (g : Game) (rng : RNG)
    (Hrun : running g = true)
    (Hquit : existsb is_quit (inputs frame) = true) :
  run_loop (S fuel) inputs frame g rng
    = update (S fuel) (handle_input (inputs frame) g) rng
  /\ forall g' rng',
       run_loop (S fuel) inputs frame g rng = Done (g', rng') ->
       running g' = false
       /\ exists h rest,
            body (snake g) = h :: rest
            /\ body (snake g')
                 = body (moved (snake (handle_input (inputs frame) g)) h).
Proof.
  assert (Heq : run_loop (S fuel) inputs frame g rng
                = update (S fuel) (handle_input (inputs frame) g) rng).
  { simpl. rewrite Hrun. unfold bind.
    destruct (update (S fuel) (handle_input (inputs frame) g) rng)
      as [[g1 rng1] | |] eqn:Hupd; try reflexivity.
    apply run_loop_running_false.
    destruct (update_done _ _ _ _ _ Hupd)
      as [h [rest [nh [r [_ [_ [_ [Hr' _]]]]]]]].
    rewrite Hr', handle_input_running, Hquit, andb_false_r.
    destruct (hit nh r); reflexivity. }
  split; [exact Heq |].
  intros g' rng' H. rewrite Heq in H.
  split.
  - destruct (update_done _ _ _ _ _ H)
      as [h [rest [nh [r [_ [_ [_ [Hr' _]]]]]]]].
    rewrite Hr', handle_input_running, Hquit, andb_false_r.
    destruct (hit nh r); reflexivity.
  - destruct (update_snake _ _ _ _ _ H) as [h [rest [e [Hb [Hb' _]]]]].
    destruct (handle_input_frame (inputs frame) g) as [Hbi _].
    exists h, rest. split; [rewrite <- Hbi; exact Hb | exact Hb'].
Qed.

Lemma quit_frame_updates_witness :
  run_loop 1 (fun _ => [KEYDOWN K_ESCAPE]) 0 start_game rng_demo
    = update 1 (handle_input [KEYDOWN K_ESCAPE] start_game) rng_demo.
Proof.
  apply (proj1 (quit_frame_updates 0 (fun _ => [KEYDOWN K_ESCAPE]) 0
                  start_game rng_demo eq_refl eq_refl)).
Defined.

(** ** Order of the segments, and what only grows *)

Lemma nth_error_removelast {A} (l : list A) (k : nat) :
  (S k < length l)%nat -> nth_error (removelast l) k = nth_error l k.
Proof.
  revert k. induction l as [|a l IH]; intros k Hk; [simpl in Hk; lia |].
  destruct l as [|b l]; [simpl in Hk; lia |].
  destruct k as [|k]; [reflexivity |].
  change (nth_error (removelast (b :: l)) k = nth_error (b :: l) k).
  apply IH. simpl in *. lia.
Qed.

(** X12.  [move] makes every segment take the place of the one in front
    of it: segment k + 1 of the new body is segment k of the old one, for
    every position k + 1 of the new body, with [grow] or without. *)
Theorem move_follows (s s' : Snake) (k : nat)
    (Hmove : move s = Done s')
    (Hk : (S k < length (body s'))%nat) :
  nth_error (body s') (S k) = nth_error (body s) k.
Proof.
  destruct (move_done s s' Hmove) as [h [rest [Hb ->]]].
  rewrite (moved_length s h rest Hb) in Hk.
  unfold moved. cbn [body]. simpl nth_error.
  destruct (grow s); [reflexivity |].
  apply nth_error_removelast. exact Hk.
Qed.

Lemma move_follows_witness :
  nth_error (body moved_init) 2 = nth_error (body Snake_init) 1.
Proof.
  apply (move_follows Snake_init moved_init 1).
  - reflexivity.
  - simpl. lia.
Defined.

Lemma update_length (fuel : nat) (g g' : Game) (rng rng' : RNG) :
  update fuel g rng = Done (g', rng') ->
  (length (body (snake g)) <= length (body (snake g')))%nat.
Proof.
  intros Hu.
  destruct (update_snake _ _ _ _ _ Hu) as [h [rest [e [Hb [Hb' _]]]]].
  rewrite Hb', (moved_length _ h rest Hb). destruct (grow (snake g)); lia.
Qed.

Lemma update_running (fuel : nat) (g g' : Game) (rng rng' : RNG) :
  update fuel g rng = Done (g', rng') ->
  running g = false -> running g' = false.
Proof.
  intros Hu Hstop.
  destruct (update_done _ _ _ _ _ Hu) as [h [rest [nh [r [_ [_ [_ [Hr _]]]]]]]].
  rewrite Hr, Hstop. destruct (hit nh r); reflexivity.
Qed.

(** X13.  Along any sequence of input handling and updates the score
    never goes down, the snake never gets shorter, and [running], once
    false, is never true again: neither [handle_input] nor [update] sets
    it. *)
Theorem session_monotone (g g' : Game) (Hplay : play g g') :
  score g <= score g'
  /\ (length (body (snake g)) <= length (body (snake g')))%nat
  /\ (running g = false -> running g' = false).
Proof.
  induction Hplay as [| g' events Hp IH | g' g'' fuel rng rng' Hp IH Hu].
  - repeat split; [lia | lia | auto].
  - destruct IH as [Hs [Hl Hr]].
    destruct (handle_input_frame events g') as [Hb [_ [_ Hsc]]].
    rewrite Hb, Hsc. repeat split; [exact Hs | exact Hl |].
    intros Hstop. rewrite handle_input_running, (Hr Hstop). reflexivity.
  - destruct IH as [Hs [Hl Hr]].
    pose proof (play_score g' g''
                  (play_update g' g' g'' fuel rng rng' (play_here g') Hu)) as Hs'.
    pose proof (update_length _ _ _ _ _ Hu) as Hl'.
    repeat split; [lia | lia |].
    intros Hstop. apply (update_running _ _ _ _ _ Hu), Hr, Hstop.
Qed.

Lemma session_monotone_witness :
  score start_game <= score start_game
  /\ 0 <= score fed_game
  /\ (3 <= length (body (snake fed_game)))%nat.
Proof.
  split; [apply (session_monotone start_game start_game (play_here _)) |].
  destruct (session_monotone
              {| snake := Snake_init; food := (420, 300); score := 0; running := true |}
              fed_game) as [Hs [Hl _]].
  - apply (play_update _
             {| snake := Snake_init; food := (420, 300); score := 0; running := true |}
             fed_game 1%nat (fun n => rng_ahead (S (S n)))
             (fun n => rng_ahead (S (S (S (S n)))))); [apply play_here | reflexivity].
  - split; [exact Hs | exact Hl].
Defined.

(** ** A session that fills the board *)

Lemma game_of_done {A} (o : outcome (A * RNG)) (a : A) :
  game_of o = Done a -> exists rng', o = Done (a, rng').
Proof.
  destruct o as [[a' rng'] | |]; simpl; intros H; inversion H.
  exists rng'. reflexivity.
Qed.

Lemma play_frames_play (fuel : nat) (frames : list (list event))
    (g g' : Game) (rng rng' : RNG) :
  play_frames fuel frames g rng = Done (g', rng') -> play g g'.
Proof.
  intros H.
  assert (Hgen : forall g0, play g0 g -> play g0 g'); [| apply Hgen, play_here].
  revert g rng H. induction frames as [|events rest IH]; intros g rng H g0 Hp.
  - simpl in H. inversion H; subst. exact Hp.
  - simpl in H. unfold bind in H.
    destruct (update fuel (handle_input events g) rng) as [[g1 rng1] | |] eqn:Hu;
      try discriminate H.
    apply (IH g1 rng1 H).
    apply (play_update g0 (handle_input events g) g1 fuel rng rng1);
      [apply play_input, Hp | exact Hu].
Qed.

Lemma reachable_by_frames (fuel fuel' : nat) (rng rng0 rng' : RNG)
    (frames : list (list event)) (g0 g : Game) :
  reset fuel rng = Done (g0, rng0) ->
  play_frames fuel' frames g0 rng0 = Done (g, rng') ->
  reachable g.
Proof.
  intros Hr Hp. exists fuel, rng, g0, rng0.
  split; [exact Hr | apply (play_frames_play _ _ _ _ _ _ Hp)].
Qed.

Lemma first_game_reset : reset 1 rng_path = Done (first_game, rng_after_reset).
Proof. vm_compute. reflexivity. Qed.

Lemma last_cell_game_frames :
  game_of (play_frames 1 (keys_along (20%nat, 15%nat)
                                     (firstn 1197 winding_path))
                       first_game rng_after_reset)
    = Done last_cell_game.
Proof. vm_compute. reflexivity. Qed.

Lemma last_cell_game_reachable : reachable last_cell_game.
Proof.
  assert (H : exists rng',
            play_frames 1 (keys_along (20%nat, 15%nat)
                                      (firstn 1197 winding_path))
                        first_game rng_after_reset
              = Done (last_cell_game, rng')).
  { apply game_of_done. exact last_cell_game_frames. }
  destruct H as [rng' H].
  exact (reachable_by_frames 1 1 rng_path rng_after_reset rng' _
           first_game last_cell_game first_game_reset H).
Qed.

Lemma covers_grid_check (l : list Pos) :
  forallb (fun p => contains p l) full_board = true -> covers_grid l.
Proof.
  intros H p Hp. apply contains_In.
  apply (proj1 (forallb_forall _ _) H), full_board_covers, Hp.
Qed.

Lemma last_cell_game_full :
  covers_grid ((780, 320) :: (780, 340) :: last_cell_tail).
Proof. apply covers_grid_check. vm_compute. reflexivity. Qed.

(** The head reaches the food and the moved body covers the playfield:
    [update] is still in the placement loop after any number of
    iterations. *)
Lemma update_on_full (g : Game) (h nh : Pos) (rest r : list Pos) :
  body (snake g) = h :: rest ->
  body (moved (snake g) h) = nh :: r ->
  nh = food g ->
  covers_grid (nh :: r) ->
  forall fuel rng, update fuel g rng = OutOfFuel.
Proof.
  intros Hb Hb1 He Hfull fuel rng.
  rewrite (update_eq fuel g rng _ nh r (move_cons _ h rest Hb) Hb1).
  replace (pos_eqb nh (food g)) with true by (symmetry; apply pos_eqb_eq, He).
  rewrite Hb1, (generate_full fuel (nh :: r) rng Hfull). reflexivity.
Qed.

(** A step the claim C5 does not describe: [last_cell_game] is a running
    game of a session, the head moves onto the food, and [update] never
    returns, whatever the fuel and the random numbers: no growth is
    flagged, no score is counted and the food is not replaced. *)
Lemma last_cell_step_never_returns :
  reachable last_cell_game
  /\ running last_cell_game = true
  /\ (exists s1 r, move (snake last_cell_game) = Done s1
                   /\ body s1 = food last_cell_game :: r)
  /\ ~ (exists fuel rng g' rng',
          update fuel last_cell_game rng = Done (g', rng')).
Proof.
  split; [exact last_cell_game_reachable |].
  split; [reflexivity |].
  split.
  - exists (moved (snake last_cell_game) (780, 340)),
           ((780, 340) :: last_cell_tail).
    split; [apply (move_cons _ (780, 340) last_cell_tail); reflexivity |].
    reflexivity.
  - intros [fuel [rng [g' [rng' Hu]]]].
    rewrite (update_on_full last_cell_game (780, 340) (780, 320)
               last_cell_tail ((780, 340) :: last_cell_tail)
               eq_refl eq_refl eq_refl last_cell_game_full fuel rng) in Hu.
    discriminate Hu.
Qed.
